(** * pghstore: the hstore text codec of [pghstore/_native.py]

    A shallow embedding of the pure-Python implementation: the escape
    helpers ([escape], [unescape]), the serializer ([dump], [dumps]), the
    pair grammar [PAIR_RE] with the generator [parse], and the file entry
    point [load].

    Modelling conventions.
    - The module works on byte strings: it matches them, slices them and
      calls [decode(encoding)] on what it captured.  A string is a
      [list ascii] and a character is a byte, so that [\s] and [strip()]
      know the six ASCII whitespace characters and [re.IGNORECASE] folds
      the ASCII letters.  Offsets are [nat].
    - The text codec ([key.decode(encoding)]) is an external collaborator
      and is a parameter [decode] of the embedding, a total function; for
      ASCII text it leaves the characters as they are ([ascii_codec]).
    - The two compiled patterns [PAIR_RE] and [ESCAPE_RE] are kept as
      regular-expression syntax trees and run by a backtracking matcher
      [rmatch] that lists every way a pattern can match at a position, in
      the priority order of the [re] module (ordered alternation, greedy
      and lazy repetition); the match the module reports is the head of
      that list.
    - [parse] is a generator: it is embedded as the state machine [next],
      one call per element requested by the consumer; [loads] consumes it
      to the end.
    - [dump] writes to a file object: the file is the text written so far.
      The arguments that [dump] checks for being callable or iterable are
      functions and lists here. *)

From Stdlib Require Import Ascii String List Arith Bool Lia.
Import ListNotations.

Set Implicit Arguments.
Set Warnings "-notation-for-abbreviation".

(** ** Byte strings *)

Notation str := (list ascii) (only parsing).

Definition s (x : string) : str := list_ascii_of_string x.

(** Literals with double quotes inside: an apostrophe stands for the double
    quote. *)
Definition q (x : string) : str :=
  map (fun c => if Ascii.eqb c "'"%char then ascii_of_nat 34 else c) (s x).

Definition backslash : ascii := "\"%char.
Definition dquote : ascii := ascii_of_nat 34.
Definition comma : ascii := ","%char.
Definition newline : ascii := "010"%char.

(** [str.isspace] for a byte: space, tab, newline, vertical tab, form feed
    and carriage return.  The class [\s] of [re] is the same set. *)
Definition isspace (c : ascii) : bool :=
  let n := nat_of_ascii c in
  ((9 <=? n) && (n <=? 13)) || (n =? 32).

(** [s.lower()] on one byte, as [re.IGNORECASE] applies it. *)
Definition lower (c : ascii) : ascii :=
  let n := nat_of_ascii c in
  if (65 <=? n) && (n <=? 90) then ascii_of_nat (n + 32) else c.

Definition lstrip (x : str) : str :=
  (fix go (l : str) : str :=
     match l with
     | [] => []
     | c :: r => if isspace c then go r else l
     end) x.

Definition rstrip (x : str) : str := rev (lstrip (rev x)).

(** [s.strip()] *)
Definition strip (x : str) : str := rstrip (lstrip x).

(** Truth value of a string: non-empty. *)
Definition truthy (x : str) : bool :=
  match x with [] => false | _ :: _ => true end.

(** [string[a:b]] for [0 <= a], [0 <= b]. *)
Definition slice (a b : nat) (x : str) : str := firstn (b - a) (skipn a x).

(** [s.replace(old, new)] where [old] is a single character. *)
Definition replace (old : ascii) (new : str) (x : str) : str :=
  flat_map (fun c => if Ascii.eqb c old then new else [c]) x.

(** ** A backtracking matcher for the patterns of the module *)

Module Re.

(** One-character items. *)
Inductive cset : Type :=
| CChar (c : ascii)            (* a literal character *)
| CNot (l : list ascii)        (* [^...] *)
| CSpace                       (* \s *)
| CNonSpace                    (* \S *)
| CDot.                        (* .  (no DOTALL: anything but a newline) *)

Inductive regex : Type :=
| REps
| RSet (cs : cset)
| REnd                                   (* $ *)
| RSeq (r1 r2 : regex)
| RAlt (r1 r2 : regex)
| RStar (r : regex)                      (* r*  *)
| RPlus (r : regex)                      (* r+  *)
| RPlusLazy (r : regex)                  (* r+? *)
| RGroup (name : string) (r : regex).    (* (?P<name>r) *)

(** Captured groups, most recent first. *)
Notation caps := (list (string * list ascii)) (only parsing).

Fixpoint group (name : string) (c : caps) : option str :=
  match c with
  | [] => None
  | (n, v) :: c' => if String.eqb n name then Some v else group name c'
  end.

(** One way of matching: the text consumed, the text left, the groups. *)
Notation res := (list ascii * list ascii * list (string * list ascii))%type
  (only parsing).

Definition fold (icase : bool) (c : ascii) : ascii :=
  if icase then lower c else c.

Definition cset_match (icase : bool) (cs : cset) (x : ascii) : bool :=
  match cs with
  | CChar c => Ascii.eqb (fold icase x) (fold icase c)
  | CNot l => negb (existsb (fun c => Ascii.eqb (fold icase x) (fold icase c)) l)
  | CSpace => isspace x
  | CNonSpace => negb (isspace x)
  | CDot => negb (Ascii.eqb x newline)
  end.

(** [$] without MULTILINE: the end of the string, or just before a newline
    that ends the string. *)
Definition at_end (x : str) : bool :=
  match x with
  | [] => true
  | [c] => Ascii.eqb c newline
  | _ => false
  end.

Definition prepend (u : str) (r : res) : res :=
  let '(u', x, c) := r in (u ++ u', x, c).

(** Continue every result of a list with [k]. *)
Definition andthen (k : str -> caps -> list res) (l : list res) : list res :=
  flat_map (fun r : res => let '(u, x, c) := r in map (prepend u) (k x c)) l.

(** Only the iterations that consumed something are repeated. *)
Definition progress (x : str) (l : list res) : list res :=
  filter (fun r : res => let '(_, x', _) := r in length x' <? length x) l.

(** Greedy repetition: one more iteration first, stopping last. *)
Fixpoint repeat_greedy (step : str -> caps -> list res) (fuel : nat)
    (x : str) (c : caps) : list res :=
  match fuel with
  | 0 => [([], x, c)]
  | S f => andthen (repeat_greedy step f) (progress x (step x c)) ++ [([], x, c)]
  end.

(** Lazy repetition: stopping first, one more iteration last. *)
Fixpoint repeat_lazy (step : str -> caps -> list res) (fuel : nat)
    (x : str) (c : caps) : list res :=
  match fuel with
  | 0 => [([], x, c)]
  | S f => ([], x, c) :: andthen (repeat_lazy step f) (progress x (step x c))
  end.

(** All the matches of [r] at the start of [x], best first. *)
Fixpoint rmatch (icase : bool) (r : regex) (x : str) (c : caps) : list res :=
  match r with
  | REps => [([], x, c)]
  | RSet cs =>
      match x with
      | a :: x' => if cset_match icase cs a then [([a], x', c)] else []
      | [] => []
      end
  | REnd => if at_end x then [([], x, c)] else []
  | RSeq r1 r2 => andthen (rmatch icase r2) (rmatch icase r1 x c)
  | RAlt r1 r2 => rmatch icase r1 x c ++ rmatch icase r2 x c
  | RStar r => repeat_greedy (rmatch icase r) (length x) x c
  | RPlus r =>
      andthen (fun x' c' => repeat_greedy (rmatch icase r) (length x') x' c')
              (rmatch icase r x c)
  | RPlusLazy r =>
      andthen (fun x' c' => repeat_lazy (rmatch icase r) (length x') x' c')
              (rmatch icase r x c)
  | RGroup n r =>
      map (fun m : res => let '(u, x', c') := m in (u, x', (n, u) :: c'))
          (rmatch icase r x c)
  end.

(** A literal string. *)
Fixpoint lit (l : str) : regex :=
  match l with
  | [] => REps
  | [a] => RSet (CChar a)
  | a :: l' => RSeq (RSet (CChar a)) (lit l')
  end.

(** The match object. *)
Record Match : Type := mkMatch
  { m_start : nat; m_end : nat; m_groups : caps }.

(** [pattern.match] at offset [pos], where [x] is the text from [pos] on. *)
Definition match_at (icase : bool) (r : regex) (x : str) (pos : nat)
  : option Match :=
  match rmatch icase r x [] with
  | (u, _, c) :: _ => Some (mkMatch pos (pos + length u) c)
  | [] => None
  end.

(** [pattern.search]: the first offset from [pos] on where the pattern
    matches. *)
Fixpoint search (icase : bool) (r : regex) (x : str) (pos : nat)
  : option Match :=
  match match_at icase r x pos with
  | Some m => Some m
  | None =>
      match x with
      | [] => None
      | _ :: x' => search icase r x' (S pos)
      end
  end.

End Re.

Import Re.

(** ** The patterns *)

(** One character of a quoted token, [[^\\Q]|\\.], and a quoted token
    whose body is the group [name], [Q (?P<name> (?:[^\\Q]|\\.)* ) Q], writing Q
    for the double quote here and below. *)
Definition QUOTED_CHAR : regex :=
  RAlt (RSet (CNot [backslash; dquote]))
       (RSeq (RSet (CChar backslash)) (RSet CDot)).

Definition QUOTED (name : string) : regex :=
  RSeq (RSet (CChar dquote))
       (RSeq (RGroup name (RStar QUOTED_CHAR)) (RSet (CChar dquote))).

(** [PAIR_RE], compiled with [re.IGNORECASE]:
<<
   (?: Q (?P<kq> (?:[^\\Q]|\\.)* ) Q | (?P<kb> \S+? ) )  \s* => \s*
   (?: Q (?P<vq> (?:[^\\Q]|\\.)* ) Q | (?P<vn> NULL ) | (?P<vb> [^,]+ ) )
   (?: , | $ )
>> *)
Definition KEY_RE : regex :=
  RAlt (QUOTED "kq") (RGroup "kb" (RPlusLazy (RSet CNonSpace))).

Definition ARROW_RE : regex :=
  RSeq (RStar (RSet CSpace)) (RSeq (lit (s "=>")) (RStar (RSet CSpace))).

Definition VALUE_RE : regex :=
  RAlt (QUOTED "vq")
       (RAlt (RGroup "vn" (lit (s "NULL")))
             (RGroup "vb" (RPlus (RSet (CNot [comma]))))).

Definition TAIL_RE : regex := RAlt (RSet (CChar comma)) REnd.

Definition PAIR_RE : regex :=
  RSeq KEY_RE (RSeq ARROW_RE (RSeq VALUE_RE TAIL_RE)).

Definition PAIR_RE_flags : bool := true.   (* re.IGNORECASE *)

(** [ESCAPE_RE]: [\\(.)] *)
Definition ESCAPE_RE : regex :=
  RSeq (RSet (CChar backslash)) (RGroup "1" (RSet CDot)).

(** [pattern.sub(repl, string)]: the matches are replaced from left to
    right; [repl] gives the replacement text from the groups of a match.
    Neither pattern of this module matches the empty string; an empty
    match would insert the replacement and step over one character. *)
Fixpoint sub (icase : bool) (r : regex) (repl : caps -> str) (fuel : nat)
    (x : str) : str :=
  match fuel with
  | 0 => x
  | S f =>
      match rmatch icase r x [] with
      | (_ :: _, x', c) :: _ => repl c ++ sub icase r repl f x'
      | ([], _, c) :: _ =>
          repl c ++ match x with [] => [] | a :: x' => a :: sub icase r repl f x' end
      | [] =>
          match x with [] => [] | a :: x' => a :: sub icase r repl f x' end
      end
  end.

(** ** The escape helpers *)

(** The template [\1]. *)
Definition group1 (c : caps) : str :=
  match group "1" c with Some v => v | None => [] end.

Definition unescape (x : str) : str :=
  sub false ESCAPE_RE group1 (S (length x)) x.

Definition escape (x : str) : str :=
  replace dquote [backslash; dquote]
    (replace backslash [backslash; backslash] x).

(** ** Objects and exceptions *)

(** What a caller can pass as a key or a value: a string, [None], or any
    other object (named by a number). *)
Inductive pyobj : Type :=
| PyStr (x : str)
| PyNone
| PyOther (o : nat).

Inductive exn : Type :=
| KeyNotString (key : pyobj)                   (* TypeError, line 156 *)
| ValueNotString (value : pyobj) (key : str)   (* TypeError, line 175 *)
| NotReadable                                  (* TypeError, line 201 *)
| Malformed (position : nat).                  (* ValueError, lines 240, 259 *)

(** ** The serializer *)

Section Dump.

(** The optional mapping functions; they return strings. *)
Variable key_map : option (pyobj -> str).
Variable value_map : option (pyobj -> str).

Definition dump_key (key : pyobj) : exn + str :=
  match key with
  | PyStr k => inr k
  | _ => match key_map with
         | None => inl (KeyNotString key)
         | Some f => inr (f key)
         end
  end.

Definition dump_value (key : str) (value : pyobj) : exn + option str :=
  match value with
  | PyNone => inr None
  | PyStr v => inr (Some v)
  | _ => match value_map with
         | None => inl (ValueNotString value key)
         | Some f => inr (Some (f value))
         end
  end.

(** The loop of [dump] over [items]; [file] is what has been written to
    the file so far, and every [write] appends to it. *)
Fixpoint dump_loop (items : list (pyobj * pyobj)) (first : bool) (file : str)
  : str * option exn :=
  match items with
  | [] => (file, None)
  | (key, value) :: items' =>
      match dump_key key with
      | inl e => (file, Some e)
      | inr key =>
          match dump_value key value with
          | inl e => (file, Some e)
          | inr value =>
              let file := if first then file ++ [dquote]
                          else file ++ [comma; dquote] in
              let file := file ++ escape key in
              let file :=
                match value with
                | None => file ++ dquote :: s "=>NULL"
                | Some v =>
                    ((file ++ dquote :: s "=>" ++ [dquote]) ++ escape v)
                      ++ [dquote]
                end in
              dump_loop items' false file
          end
      end
  end.

Definition dump (items : list (pyobj * pyobj)) (file : str)
  : str * option exn :=
  dump_loop items true file.

(** [dumps]: [dump] into a fresh buffer, then [getvalue()]. *)
Definition dumps (items : list (pyobj * pyobj)) : exn + str :=
  match dump items [] with
  | (result, None) => inr result
  | (_, Some e) => inl e
  end.

End Dump.

(** ** The parser *)

(** What [parse] yields: a key and a value, each of them possibly [None]. *)
Notation Pair := (option (list ascii) * option (list ascii))%type
  (only parsing).

Section Parse.

(** [x.decode(encoding)] *)
Variable decode : str -> str.

(** Truth value of [match.group(name)]: neither [None] nor empty. *)
Definition present (g : option str) : bool :=
  match g with Some (_ :: _) => true | _ => false end.

(** The body of the loop, lines 241 to 255. *)
Definition pair_of (m : Match) : Pair :=
  let kq := group "kq" (m_groups m) in
  let key :=
    if present kq then option_map unescape kq
    else group "kb" (m_groups m) in
  let key := option_map decode key in
  let vq := group "vq" (m_groups m) in
  let value :=
    if present vq then option_map unescape vq
    else
      let vn := group "vn" (m_groups m) in
      if present vn then None else group "vb" (m_groups m) in
  let value := option_map decode value in
  (key, value).

(** The generator object: the [offset] variable, the position where
    [finditer] resumes, and whether the generator has finished. *)
Record gen : Type := mkGen
  { g_offset : nat; g_cursor : nat; g_finished : bool }.

Inductive event : Type :=
| Yield (p : Pair)
| Raise (e : exn)
| StopIteration.

Definition start : gen := mkGen 0 0 false.
Definition finished (g : gen) : gen :=
  mkGen (g_offset g) (g_cursor g) true.

(** The next match of [PAIR_RE.finditer(string)], and where the iterator
    resumes after a match. *)
Definition finditer_next (string : str) (cursor : nat) : option Match :=
  if length string <? cursor then None
  else search PAIR_RE_flags PAIR_RE (skipn cursor string) cursor.

Definition advance (m : Match) : nat :=
  if m_end m =? m_start m then S (m_end m) else m_end m.

(** The tests of lines 239 and 258. *)
Definition gap_dirty (string : str) (offset stop : nat) : bool :=
  (stop <? offset) || truthy (strip (slice offset stop string)).

Definition tail_dirty (string : str) (offset : nat) : bool :=
  (length string <? offset) || truthy (strip (skipn offset string)).

(** One [next()] on the generator returned by [parse(string)]. *)
Definition next (string : str) (g : gen) : event * gen :=
  if g_finished g then (StopIteration, g)
  else
    let offset := g_offset g in
    match finditer_next string (g_cursor g) with
    | Some m =>
        if gap_dirty string offset (m_start m)
        then (Raise (Malformed offset), finished g)
        else (Yield (pair_of m), mkGen (m_end m) (advance m) false)
    | None =>
        if tail_dirty string offset
        then (Raise (Malformed offset), finished g)
        else (StopIteration, finished g)
    end.

(** Consuming the generator to its end, as [list(...)] does: the pairs
    collected, or the exception that escaped.  [None] when [fuel] calls of
    [next] did not exhaust the generator. *)
Fixpoint consume (fuel : nat) (string : str) (g : gen)
  : option (exn + list Pair) :=
  match fuel with
  | 0 => None
  | S f =>
      match next string g with
      | (Yield p, g') =>
          match consume f string g' with
          | Some (inr l) => Some (inr (p :: l))
          | other => other
          end
      | (Raise e, _) => Some (inl e)
      | (StopIteration, _) => Some (inr [])
      end
  end.

(** [loads(string, return_type=list)] *)
Definition loads (string : str) : option (exn + list Pair) :=
  consume (S (S (length string))) string start.

(** The first [n] calls of [next] and the events they return. *)
Fixpoint nexts (n : nat) (string : str) (g : gen) : list event * gen :=
  match n with
  | 0 => ([], g)
  | S n' =>
      let '(e, g') := next string g in
      let '(es, g'') := nexts n' string g' in
      (e :: es, g'')
  end.

(** ** Reading from a file *)

(** The argument of [load]: a string, which has no [read] method, or an
    object whose [read()] returns [content]. *)
Inductive source : Type :=
| SrcStr (x : str)
| SrcFile (content : source).

(** [load] calls itself on what [read()] returned (line 203). *)
Fixpoint load (file : source) : exn + list Pair :=
  match file with
  | SrcStr _ => inl NotReadable
  | SrcFile content => load content
  end.

End Parse.

(** ** Definitions used to state the properties *)

(** What [escape] does to one character. *)
Definition escape_char (c : ascii) : str :=
  if Ascii.eqb c backslash then [backslash; backslash]
  else if Ascii.eqb c dquote then [backslash; dquote]
  else [c].

(** Removing escapes by a left-to-right scan: a backslash followed by a
    character other than a newline is dropped and the character kept. *)
Fixpoint strip_escapes (x : str) : str :=
  match x with
  | [] => []
  | a :: x' =>
      match x' with
      | [] => [a]
      | b :: x'' =>
          if Ascii.eqb a backslash && negb (Ascii.eqb b newline)
          then b :: strip_escapes x''
          else a :: strip_escapes x'
      end
  end.

(** The rule as the specification words it: a backslash followed by any
    character at all is dropped and the character kept. *)
Fixpoint strip_escapes_any (x : str) : str :=
  match x with
  | [] => []
  | a :: x' =>
      match x' with
      | [] => [a]
      | b :: x'' =>
          if Ascii.eqb a backslash
          then b :: strip_escapes_any x''
          else a :: strip_escapes_any x'
      end
  end.

(** The scan of [strip_escapes] ends on a backslash with nothing after
    it. *)
Fixpoint dangling (x : str) : bool :=
  match x with
  | [] => false
  | a :: x' =>
      match x' with
      | [] => Ascii.eqb a backslash
      | b :: x'' =>
          if Ascii.eqb a backslash && negb (Ascii.eqb b newline)
          then dangling x''
          else dangling x'
      end
  end.

(** The text of one pair, and of a document, as the specification gives
    it: quoted escaped key, arrow, quoted escaped value or the bare NULL;
    pairs joined by single commas. *)
Definition render_pair (p : str * option str) : str :=
  dquote :: escape (fst p) ++ dquote :: s "=>" ++
  match snd p with
  | None => s "NULL"
  | Some v => dquote :: escape v ++ [dquote]
  end.

Fixpoint join (sep : str) (l : list str) : str :=
  match l with
  | [] => []
  | [x] => x
  | x :: l' => x ++ sep ++ join sep l'
  end.

Definition render (d : list (str * option str)) : str :=
  join [comma] (map render_pair d).

(** A text document as the caller passes it. *)
Definition as_items (d : list (str * option str)) : list (pyobj * pyobj) :=
  map (fun p : str * option str =>
         (PyStr (fst p),
          match snd p with Some v => PyStr v | None => PyNone end)) d.

(** The pair [p] is what [dump] writes for the item [it]: strings and
    [None] stand for themselves, other objects go through the mapping
    functions. *)
Definition written_as (key_map value_map : option (pyobj -> str))
    (it : pyobj * pyobj) (p : str * option str) : Prop :=
  match fst it with
  | PyStr k => fst p = k
  | o => exists f, key_map = Some f /\ fst p = f o
  end /\
  match snd it with
  | PyStr v => snd p = Some v
  | PyNone => snd p = None
  | o => exists f, value_map = Some f /\ snd p = Some (f o)
  end.

(** [list(PAIR_RE.finditer(string))], from [cursor] on. *)
Fixpoint finditer (fuel : nat) (string : str) (cursor : nat) : list Match :=
  match fuel with
  | 0 => []
  | S f =>
      match finditer_next string cursor with
      | None => []
      | Some m => m :: finditer f string (advance m)
      end
  end.

Definition matches (string : str) : list Match :=
  finditer (S (length string)) string 0.

(** The value of [offset] after the matches [ms]. *)
Definition offset_after (offset : nat) (ms : list Match) : nat :=
  last (map m_end ms) offset.

(** Only whitespace lies before each of the matches [ms], scanning from
    [offset]. *)
Fixpoint gaps_clean (string : str) (offset : nat) (ms : list Match) : bool :=
  match ms with
  | [] => true
  | m :: ms' =>
      negb (gap_dirty string offset (m_start m))
      && gaps_clean string (m_end m) ms'
  end.

(** The codec of ASCII text: the bytes are the characters. *)
Definition ascii_codec : str -> str := fun x => x.

(** The text [dump] writes for the pairs after the first. *)
Definition render_more (d : list (str * option str)) : str :=
  flat_map (fun p => comma :: render_pair p) d.

(** The events of a generator that yields the pairs of [ms]. *)
Definition yields (decode : str -> str) (ms : list Match) : list event :=
  map (fun m => Yield (pair_of decode m)) ms.

(** [string] is malformed after the matches [pre]: only whitespace lies
    before each of them, and something else lies between the last of them
    and the next match, or the end of [string] when there is no other
    match. *)
Definition malformed_after (string : str) (pre : list Match) : Prop :=
  gaps_clean string 0 pre = true /\
  ((exists m post,
       matches string = pre ++ m :: post /\
       gap_dirty string (offset_after 0 pre) (m_start m) = true)
   \/ (matches string = pre /\
       tail_dirty string (offset_after 0 pre) = true)).

(** ** Tokens of the pair grammar *)

(** A key is written quoted or bare; a value is written quoted, as the
    NULL literal in some spelling, or bare. *)
Inductive key_token : Type :=
| KQuoted (body : str)
| KBare (text : str).

Inductive value_token : Type :=
| VQuoted (body : str)
| VNull (spelling : str)
| VBare (text : str).

(** One pair as it is written: the whitespace before the key (after the
    comma of the previous pair, or at the start of the input), the key, the
    whitespace on the left and on the right of the arrow, the value. *)
Record item : Type := mkItem
  { i_lead : str; i_key : key_token;
    i_left : str; i_right : str; i_value : value_token }.

Definition quoted (body : str) : str := dquote :: body ++ [dquote].

Definition key_text (k : key_token) : str :=
  match k with
  | KQuoted body => quoted body
  | KBare text => text
  end.

Definition value_text (v : value_token) : str :=
  match v with
  | VQuoted body => quoted body
  | VNull spelling => spelling
  | VBare text => text
  end.

Definition pair_text (it : item) : str :=
  key_text (i_key it) ++ i_left it ++ s "=>" ++ i_right it
  ++ value_text (i_value it).

Definition item_text (it : item) : str := i_lead it ++ pair_text it.

Definition loose_text (l : list item) : str :=
  join [comma] (map item_text l).

(** The same pair without the optional whitespace. *)
Definition compact (it : item) : item :=
  mkItem [] (i_key it) [] [] (i_value it).

(** The body of a quoted token: no bare double quote, and every backslash
    is followed by a character other than a newline. *)
Fixpoint quoted_ok (body : str) : bool :=
  match body with
  | [] => true
  | a :: x =>
      if Ascii.eqb a dquote then false
      else if Ascii.eqb a backslash then
        match x with
        | [] => false
        | b :: x' => negb (Ascii.eqb b newline) && quoted_ok x'
        end
      else quoted_ok x
  end.

(** [x] starts with [p], letter case apart. *)
Fixpoint istarts (p x : str) : bool :=
  match p, x with
  | [], _ => true
  | _ :: _, [] => false
  | a :: p', b :: x' => Ascii.eqb (lower b) (lower a) && istarts p' x'
  end.

Definition starts_arrow (x : str) : bool := istarts (s "=>") x.

Fixpoint has_arrow (x : str) : bool :=
  match x with
  | [] => false
  | _ :: x' => starts_arrow x || has_arrow x'
  end.

Definition starts_null (x : str) : bool := istarts (s "NULL") x.

Definition nonspace (c : ascii) : bool := negb (isspace c).
Definition noncomma (c : ascii) : bool := negb (Ascii.eqb c comma).

(** A bare key is a non-empty run without whitespace that does not start
    with a double quote and has no arrow after its first character. *)
Definition key_ok (k : key_token) : bool :=
  match k with
  | KQuoted body => quoted_ok body
  | KBare [] => false
  | KBare (a :: x) =>
      negb (Ascii.eqb a dquote) && forallb nonspace (a :: x)
      && negb (has_arrow x)
  end.

(** A bare value is a non-empty run without commas that starts neither
    with whitespace, nor with a double quote, nor with the letters of
    NULL. *)
Definition value_ok (v : value_token) : bool :=
  match v with
  | VQuoted body => quoted_ok body
  | VNull spelling =>
      (length spelling =? 4) && starts_null spelling
  | VBare [] => false
  | VBare (a :: x) =>
      negb (Ascii.eqb a dquote) && nonspace a && forallb noncomma (a :: x)
      && negb (starts_null (a :: x))
  end.

Definition item_ok (it : item) : bool :=
  forallb isspace (i_lead it) && key_ok (i_key it)
  && forallb isspace (i_left it) && forallb isspace (i_right it)
  && value_ok (i_value it).

(** The groups of the match of one pair. *)
Definition key_groups (k : key_token) : caps :=
  match k with
  | KQuoted body => [("kq"%string, body)]
  | KBare text => [("kb"%string, text)]
  end.

Definition value_groups (v : value_token) : caps :=
  match v with
  | VQuoted body => [("vq"%string, body)]
  | VNull spelling => [("vn"%string, spelling)]
  | VBare text => [("vb"%string, text)]
  end.

Definition item_groups (it : item) : caps :=
  value_groups (i_value it) ++ key_groups (i_key it).

(** The pair that the body of the loop makes of the groups of a match of
    the item [it]. *)
Definition meaning (decode : str -> str) (it : item) : Pair :=
  pair_of decode (mkMatch 0 0 (item_groups it)).

(** What follows a pair in the input: nothing, or a comma and more text. *)
Definition tail_text (more : option str) : str :=
  match more with None => [] | Some r => comma :: r end.

Definition tail_sep (more : option str) : str :=
  match more with None => [] | Some _ => [comma] end.

Definition tail_rest (more : option str) : str :=
  match more with None => [] | Some r => r end.

(** A document of quoted tokens without optional whitespace. *)
Definition as_item (p : str * option str) : item :=
  mkItem [] (KQuoted (escape (fst p))) [] []
         match snd p with
         | Some v => VQuoted (escape v)
         | None => VNull (s "NULL")
         end.

Definition nonempty_strings (p : str * option str) : bool :=
  truthy (fst p) && match snd p with Some v => truthy v | None => true end.

(** Everything of [PAIR_RE] after the key. *)
Definition AFTER_KEY : regex := RSeq ARROW_RE (RSeq VALUE_RE TAIL_RE).

(** A repetition of the class [cs] cannot go on into [rest]. *)
Definition stops_at (icase : bool) (cs : cset) (rest : str) : Prop :=
  match rest with
  | [] => True
  | a :: _ => cset_match icase cs a = false
  end.

Definition starts_nonspace (x : str) : Prop :=
  match x with [] => True | a :: _ => isspace a = false end.

Definition not_greater (x : str) : Prop :=
  match x with
  | [] => True
  | a :: _ => Ascii.eqb (lower a) (lower ">"%char) = false
  end.

(** The text [a=>1, b => 2] as items. *)
Definition spaced_example : list item :=
  [mkItem [] (KBare (s "a")) [] [] (VBare (s "1"));
   mkItem (s " ") (KBare (s "b")) (s " ") (s " ") (VBare (s "2"))].

(** Only whitespace lies before the first match of [PAIR_RE] in [string],
    between two matches and after the last one. *)
Definition well_tiled (string : str) : bool :=
  gaps_clean string 0 (matches string)
  && negb (tail_dirty string (offset_after 0 (matches string))).

(** Every group of [r] named [n] captures a string that satisfies [P n],
    and so do the groups in [c]. *)
Fixpoint groups_ok (P : string -> str -> Prop) (r : regex) : Prop :=
  match r with
  | RGroup n r' =>
      (forall icase x c u x' c',
          In (u, x', c') (rmatch icase r' x c) -> P n u)
      /\ groups_ok P r'
  | RSeq r1 r2 | RAlt r1 r2 => groups_ok P r1 /\ groups_ok P r2
  | RStar r' | RPlus r' | RPlusLazy r' => groups_ok P r'
  | REps | RSet _ | REnd => True
  end.

Definition caps_ok (P : string -> str -> Prop) (c : caps) : Prop :=
  Forall (fun p : string * str => P (fst p) (snd p)) c.

(** The groups of the bare tokens hold non-empty strings. *)
Definition bare_nonempty (n : string) (u : str) : Prop :=
  n = "kb"%string \/ n = "vb"%string -> u <> [].

(** [None], or the decoding of a non-empty string. *)
Definition from_nonempty (decode : str -> str) (o : option str) : Prop :=
  match o with
  | None => True
  | Some y => exists t, t <> [] /\ y = decode t
  end.

Definition yield_nonempty (decode : str -> str) (e : event) : Prop :=
  match e with
  | Yield p => from_nonempty decode (fst p) /\ from_nonempty decode (snd p)
  | _ => True
  end.

(** What the loop of [parse] makes of each kind of token: a quoted token
    gives its body without the escapes, and [None] when the body is empty;
    the NULL literal gives [None]; a bare token gives its text as it
    stands. *)
Definition key_meaning (decode : str -> str) (k : key_token) : option str :=
  match k with
  | KQuoted [] => None
  | KQuoted body => Some (decode (unescape body))
  | KBare text => Some (decode text)
  end.

Definition value_meaning (decode : str -> str) (v : value_token)
  : option str :=
  match v with
  | VQuoted [] => None
  | VQuoted body => Some (decode (unescape body))
  | VNull _ => None
  | VBare text => Some (decode text)
  end.

Definition token_meaning (decode : str -> str) (it : item) : Pair :=
  (key_meaning decode (i_key it), value_meaning decode (i_value it)).

(** The text of the items [l], then what [trail] gives: nothing, or a
    comma and the text [w].  Without any item the text is [w] alone. *)
Fixpoint loose_trail (l : list item) (trail : option str) : str :=
  match l with
  | [] => tail_rest trail
  | it :: l' =>
      item_text it
      ++ tail_text match l' with
                   | [] => trail
                   | _ :: _ => Some (loose_trail l' trail)
                   end
  end.

Definition trail_ok (trail : option str) : bool :=
  forallb isspace (tail_rest trail).

(** The groups of the match of a pair that [dump] wrote, and the pair
    read back from such groups. *)
Definition dumped_groups (p : str * option str) : caps :=
  match snd p with
  | Some v => [("vq"%string, escape v); ("kq"%string, escape (fst p))]
  | None => [("vn"%string, s "NULL"); ("kq"%string, escape (fst p))]
  end.

Definition read_groups (c : caps) : str * option str :=
  (match group "kq" c with Some k => unescape k | None => [] end,
   option_map unescape (group "vq" c)).

(** A text with a quoted key, a bare key, the NULL literal in mixed case
    and a bare value with a backslash. *)
Definition tokens_example : list item :=
  [mkItem [] (KQuoted (s "a\b")) [] (s " ") (VNull (s "nUlL"));
   mkItem (s " ") (KBare (s "k")) [] [] (VBare (s "x\y z"))].

(** ** The return type of [loads] *)

(** [loads(string, encoding, return_type)]: [return_type] is given the
    generator and consumes it. *)
Definition loads_as (R : Type) (decode : str -> str)
    (return_type : list Pair -> R) (string : str) : option (exn + R) :=
  match loads decode string with
  | Some (inr pairs) => Some (inr (return_type pairs))
  | Some (inl e) => Some (inl e)
  | None => None
  end.

Definition key_eq_dec (a b : option str) : {a = b} + {a <> b}.
Proof. repeat decide equality. Defined.

(** [d[k] = v] on a dictionary kept as the list of its items in the order
    of insertion: the value of a key that is there is replaced in place, a
    new key goes to the end. *)
Fixpoint dict_set (k v : option str) (d : list Pair) : list Pair :=
  match d with
  | [] => [(k, v)]
  | (k', v') :: d' =>
      if key_eq_dec k k' then (k, v) :: d' else (k', v') :: dict_set k v d'
  end.

(** [dict(pairs)], the default [return_type]. *)
Definition dict (pairs : list Pair) : list Pair :=
  fold_left (fun d p => dict_set (fst p) (snd p) d) pairs [].

(** A pair of the document as [parse] gives it back. *)
Definition decoded (decode : str -> str) (p : str * option str) : Pair :=
  (Some (decode (fst p)), option_map decode (snd p)).

(** Characters that [escape] leaves alone, and the number of those it
    does not. *)
Definition plain (c : ascii) : bool :=
  negb (Ascii.eqb c backslash) && negb (Ascii.eqb c dquote).

Definition specials (x : str) : nat :=
  length (filter (fun c => negb (plain c)) x).

Definition no_backslash (c : ascii) : bool := negb (Ascii.eqb c backslash).

(** ** Tactics *)

Ltac app_norm := repeat (progress (cbn [app]) || rewrite <- app_assoc).

(** A fact about one character, checked on each of the 256 characters. *)
Ltac ascii_cases a := destruct a as [[] [] [] [] [] [] [] []]; reflexivity.

(** * Properties *)

(** ** Lists and characters *)

Lemma pair_induction (P : str -> Prop) :
  P [] -> (forall a, P [a]) ->
  (forall a b x, P x -> P (b :: x) -> P (a :: b :: x)) ->
  forall x, P x.
Proof.
  intros H0 H1 H2 x.
  assert (H : P x /\ forall a, P (a :: x)).
  { induction x as [|b x [IH1 IH2]]; split; auto. }
  apply H.
Qed.

Lemma replace_app old new x y :
  replace old new (x ++ y) = replace old new x ++ replace old new y.
Proof. unfold replace. apply flat_map_app. Qed.

Lemma replace_cons old new a x :
  replace old new (a :: x) =
  (if Ascii.eqb a old then new else [a]) ++ replace old new x.
Proof. reflexivity. Qed.

(** ** The escape helpers *)

Lemma escape_flat_map x : escape x = flat_map escape_char x.
Proof.
  unfold escape. induction x as [|a x IH]; [reflexivity|].
  rewrite replace_cons, replace_app, IH. simpl flat_map. f_equal.
  unfold escape_char.
  destruct (Ascii.eqb_spec a backslash) as [->|Hb]; [reflexivity|].
  rewrite replace_cons. simpl replace. rewrite app_nil_r.
  reflexivity.
Qed.

Lemma escape_cons a x : escape (a :: x) = escape_char a ++ escape x.
Proof. rewrite !escape_flat_map. reflexivity. Qed.


Lemma ESCAPE_RE_match x :
  rmatch false ESCAPE_RE x [] =
  match x with
  | a :: b :: x' =>
      if Ascii.eqb a backslash && negb (Ascii.eqb b newline)
      then [([a; b], x', [("1"%string, [b])])] else []
  | _ => []
  end.
Proof.
  destruct x as [|a [|b x]]; simpl.
  - reflexivity.
  - destruct (Ascii.eqb a backslash); reflexivity.
  - destruct (Ascii.eqb a backslash); simpl; [|reflexivity].
    destruct (Ascii.eqb b newline); reflexivity.
Qed.

Lemma sub_ESCAPE_RE fuel : forall x,
  length x < fuel -> sub false ESCAPE_RE group1 fuel x = strip_escapes x.
Proof.
  induction fuel as [|f IH]; intros x Hlen; [lia|].
  cbn [sub]. rewrite ESCAPE_RE_match.
  destruct x as [|a [|b x]]; [reflexivity| |].
  - destruct f; reflexivity.
  - cbn [strip_escapes].
    destruct (Ascii.eqb a backslash && negb (Ascii.eqb b newline)).
    + cbn. f_equal. apply IH. cbn in Hlen. lia.
    + f_equal. apply IH. cbn in Hlen |- *. lia.
Qed.

Lemma unescape_scan x : unescape x = strip_escapes x.
Proof. apply sub_ESCAPE_RE. lia. Qed.

Lemma strip_escapes_escape x : strip_escapes (flat_map escape_char x) = x.
Proof.
  induction x as [|a x IH]; [reflexivity|].
  cbn [flat_map]. unfold escape_char at 1.
  destruct (Ascii.eqb_spec a backslash) as [->|Hb].
  - cbn. now rewrite IH.
  - destruct (Ascii.eqb_spec a dquote) as [->|Hq].
    + cbn. now rewrite IH.
    + cbn [app strip_escapes].
      destruct (flat_map escape_char x) as [|b y] eqn:E.
      * now rewrite <- IH.
      * apply Ascii.eqb_neq in Hb. rewrite Hb. cbn [andb].
        now rewrite IH.
Qed.

Lemma unescape_escape x : unescape (escape x) = x.
Proof.
  rewrite unescape_scan, escape_flat_map. apply strip_escapes_escape.
Qed.

Lemma strip_escapes_cons2 a b x :
  strip_escapes (a :: b :: x) =
  if Ascii.eqb a backslash && negb (Ascii.eqb b newline)
  then b :: strip_escapes x else a :: strip_escapes (b :: x).
Proof. reflexivity. Qed.

Lemma strip_escapes_dangling : forall x,
  dangling x = false ->
  strip_escapes (x ++ [backslash]) = strip_escapes x ++ [backslash].
Proof.
  induction x as [| a | a b x IH1 IH2] using pair_induction; intros H.
  - reflexivity.
  - cbn in H |- *. rewrite H. reflexivity.
  - cbn [dangling] in H.
    change ((a :: b :: x) ++ [backslash]) with (a :: b :: (x ++ [backslash])).
    rewrite !strip_escapes_cons2.
    destruct (Ascii.eqb a backslash && negb (Ascii.eqb b newline)).
    + rewrite IH1 by assumption. reflexivity.
    + change (b :: x ++ [backslash]) with ((b :: x) ++ [backslash]).
      rewrite IH2 by assumption. reflexivity.
Qed.

(** C4, as amended.  For every string [x], [unescape (escape x) = x];
    [escape] doubles every backslash and then puts a backslash before every
    double quote, so that character by character a backslash becomes two
    and a double quote becomes backslash, double quote; [unescape] replaces,
    scanning from the left, every backslash followed by a character other
    than a newline with that character.  Both functions are total. *)
Theorem escape_unescape_roundtrip : forall x : str,
  unescape (escape x) = x /\
  escape x = flat_map escape_char x /\
  unescape x = strip_escapes x.
Proof.
  intros x. split; [apply unescape_escape|].
  split; [apply escape_flat_map|apply unescape_scan].
Qed.

(** C4, counterexample.  A backslash followed by a newline is not an escape
    sequence for [unescape]: the two characters are left as they are,
    where the rule for any character would leave the newline alone. *)
Lemma unescape_backslash_newline :
  unescape [backslash; newline] = [backslash; newline] /\
  strip_escapes_any [backslash; newline] = [newline] /\
  unescape [backslash; newline] <> strip_escapes_any [backslash; newline].
Proof.
  split; [reflexivity|]. split; [reflexivity|]. discriminate.
Qed.

(** C10.  A final backslash that no escape sequence consumes is kept:
    when the scan of [x] does not end on a pending backslash, [unescape]
    of [x] followed by one backslash is [unescape x] followed by that
    backslash. *)
Theorem unescape_trailing_backslash : forall x : str,
  dangling x = false ->
  unescape (x ++ [backslash]) = unescape x ++ [backslash].
Proof.
  intros x H. rewrite !unescape_scan. now apply strip_escapes_dangling.
Qed.

(** The final backslash of [a\] is kept. *)
Lemma unescape_trailing_backslash_witness :
  dangling (s "a") = false /\
  unescape (s "a" ++ [backslash]) = s "a" ++ [backslash].
Proof.
  split; [reflexivity|].
  exact (unescape_trailing_backslash (s "a") eq_refl).
Defined.

(** ** The serializer *)

Lemma render_cons p d : render (p :: d) = render_pair p ++ render_more d.
Proof.
  unfold render. revert p.
  induction d as [|p' d IH]; intros p; cbn [map join render_more flat_map].
  - now rewrite app_nil_r.
  - f_equal. cbn [app]. f_equal. apply (IH p').
Qed.

Section DumpFacts.

Variables key_map value_map : option (pyobj -> str).

Lemma dump_loop_written : forall items first file out,
  dump_loop key_map value_map items first file = (out, None) ->
  exists d,
    Forall2 (written_as key_map value_map) items d /\
    out = file ++ (if first then render d else render_more d).
Proof.
  induction items as [|[key value] items IH]; intros first file out H.
  - cbn in H. injection H as <-. exists []. split; [constructor|].
    destruct first; cbn; now rewrite app_nil_r.
  - cbn [dump_loop] in H.
    destruct (dump_key key_map key) as [e|k] eqn:Ek; [discriminate|].
    destruct (dump_value value_map k value) as [e|v] eqn:Ev; [discriminate|].
    apply IH in H. destruct H as (d & Hd & ->).
    exists ((k, v) :: d). split.
    + constructor; [|assumption]. split; cbn [fst snd].
      * destruct key; cbn in Ek; try (now injection Ek);
          destruct key_map as [f|]; try discriminate;
          injection Ek as <-; now exists f.
      * destruct value; cbn in Ev; try (now injection Ev as <-);
          destruct value_map as [f|]; try discriminate;
          injection Ev as <-; now exists f.
    + cbn [render_more flat_map]. rewrite render_cons.
      unfold render_pair. cbn [fst snd].
      destruct first, v as [v|]; cbn [s list_ascii_of_string]; app_norm; reflexivity.
Qed.

Lemma dump_loop_text : forall d first file,
  dump_loop key_map value_map (as_items d) first file =
  (file ++ (if first then render d else render_more d), None).
Proof.
  induction d as [|[k v] d IH]; intros first file.
  - destruct first; cbn; now rewrite app_nil_r.
  - cbn [as_items map dump_loop fst snd dump_key].
    assert (Ev : dump_value value_map k
                   match v with Some v0 => PyStr v0 | None => PyNone end
                 = inr v) by (destruct v; reflexivity).
    rewrite Ev. fold (as_items d). rewrite IH.
    cbn [render_more flat_map]. rewrite render_cons.
    unfold render_pair. cbn [fst snd].
    destruct first, v as [v|]; cbn [s list_ascii_of_string]; app_norm; reflexivity.
Qed.

End DumpFacts.

(** C5.  Whatever [dumps] returns is the text of the pairs in order, each
    one a quoted escaped key, the arrow, and a quoted escaped value or the
    bare token NULL, joined by single commas with nothing before the first
    pair and nothing after the last; a document of strings and [None]
    values is always accepted. *)
Theorem dumps_format :
  forall (key_map value_map : option (pyobj -> str)),
    (forall items out,
        dumps key_map value_map items = inr out ->
        exists d,
          Forall2 (written_as key_map value_map) items d /\ out = render d)
    /\ (forall d, dumps key_map value_map (as_items d) = inr (render d)).
Proof.
  intros km vm. split.
  - intros items out H. unfold dumps, dump in H.
    destruct (dump_loop km vm items true []) as [result [e|]] eqn:E;
      [discriminate|].
    injection H as <-. apply dump_loop_written in E.
    destruct E as (d & Hd & ->). now exists d.
  - intros d. unfold dumps, dump. now rewrite dump_loop_text.
Qed.

(** A value that goes through [value_map], and a [None] value. *)
Lemma dumps_format_witness :
  dumps None (Some (fun _ => s "1"))
        [(PyStr (s "a"), PyOther 1); (PyStr (s "null"), PyNone)]
  = inr (q "'a'=>'1','null'=>NULL")
  /\ exists d,
      Forall2 (written_as None (Some (fun _ => s "1")))
              [(PyStr (s "a"), PyOther 1); (PyStr (s "null"), PyNone)] d
      /\ q "'a'=>'1','null'=>NULL" = render d.
Proof.
  split; [reflexivity|].
  exact (proj1 (dumps_format None (Some (fun _ => s "1")))
               [(PyStr (s "a"), PyOther 1); (PyStr (s "null"), PyNone)]
               (q "'a'=>'1','null'=>NULL") eq_refl).
Defined.

(** ** Reading from a file *)

(** C8.  [load] never parses anything: it hands what [read()] returned to
    itself instead of [loads], and a string has no [read] method, so every
    call ends in the TypeError of line 201. *)
Theorem load_never_parses : forall file : source, load file = inl NotReadable.
Proof. induction file as [x|content IH]; [reflexivity|exact IH]. Qed.

(** ** The generator *)

Lemma last_cons (A : Type) (l : list A) (a d : A) :
  last (a :: l) d = last l a.
Proof.
  revert a d. induction l as [|b l IH]; intros a d; [reflexivity|].
  change (last (a :: b :: l) d) with (last (b :: l) d).
  now rewrite (IH b d), (IH b a).
Qed.

Lemma offset_after_cons offset m ms :
  offset_after offset (m :: ms) = offset_after (m_end m) ms.
Proof. unfold offset_after. cbn [map]. apply last_cons. Qed.

Lemma search_bounds icase r : forall x pos m,
  search icase r x pos = Some m -> pos <= m_start m /\ m_start m <= m_end m.
Proof.
  induction x as [|a x IH]; intros pos m H; cbn [search] in H;
    unfold match_at in H.
  - destruct (rmatch icase r [] []) as [|[[u y] c] l]; [discriminate|].
    injection H as <-. cbn. lia.
  - destruct (rmatch icase r (a :: x) []) as [|[[u y] c] l].
    + apply IH in H. lia.
    + injection H as <-. cbn. lia.
Qed.

Lemma finditer_next_bounds string cursor m :
  finditer_next string cursor = Some m ->
  cursor <= length string /\ cursor < advance m.
Proof.
  unfold finditer_next, advance. intros H.
  destruct (Nat.ltb_spec (length string) cursor) as [Hlt|Hle]; [discriminate|].
  apply search_bounds in H.
  destruct (Nat.eqb_spec (m_end m) (m_start m)); lia.
Qed.

Lemma finditer_length : forall fuel string cursor,
  length (finditer fuel string cursor) <= fuel.
Proof.
  induction fuel as [|f IH]; intros string cursor; cbn [finditer].
  - cbn. lia.
  - destruct (finditer_next string cursor); cbn; [|lia].
    specialize (IH string (advance m)). lia.
Qed.

Lemma finditer_exhausted fuel string cursor :
  finditer fuel string cursor = [] ->
  length string < fuel + cursor ->
  finditer_next string cursor = None.
Proof.
  destruct fuel as [|f]; cbn [finditer]; intros H Hlen.
  - unfold finditer_next.
    destruct (Nat.ltb_spec (length string) cursor); [reflexivity|lia].
  - destruct (finditer_next string cursor); [discriminate|reflexivity].
Qed.

Section Generator.

Variable decode : str -> str.
Variable string : str.

(** While the gaps are clean, each call of [next] yields the pair of the
    next match. *)
Lemma nexts_clean : forall pre fuel cursor offset rest,
  finditer fuel string cursor = pre ++ rest ->
  gaps_clean string offset pre = true ->
  exists fuel' cursor',
    nexts decode (length pre) string (mkGen offset cursor false)
    = (yields decode pre, mkGen (offset_after offset pre) cursor' false)
    /\ finditer fuel' string cursor' = rest
    /\ (length string < fuel + cursor -> length string < fuel' + cursor').
Proof.
  induction pre as [|m pre IH]; intros fuel cursor offset rest Hit Hclean.
  - exists fuel, cursor. cbn. auto.
  - destruct fuel as [|f]; [discriminate|]. cbn [finditer app] in Hit.
    destruct (finditer_next string cursor) as [m'|] eqn:En; [|discriminate].
    injection Hit as -> Hit.
    cbn [gaps_clean] in Hclean. apply andb_true_iff in Hclean.
    destruct Hclean as [Hgap Hclean]. apply negb_true_iff in Hgap.
    destruct (IH f (advance m) (m_end m) rest Hit Hclean)
      as (fuel' & cursor' & Hn & Hrest & Hinv).
    exists fuel', cursor'. split; [|split].
    + cbn [length nexts]. unfold next at 1. cbn [g_finished g_offset g_cursor].
      rewrite En, Hgap, Hn. rewrite offset_after_cons. reflexivity.
    + assumption.
    + intros Hlen. apply Hinv. apply finditer_next_bounds in En. lia.
Qed.

(** The call after the clean matches, when the next gap is not clean. *)
Lemma next_dirty fuel cursor offset rest :
  finditer fuel string cursor = rest ->
  length string < fuel + cursor ->
  match rest with
  | m :: _ => gap_dirty string offset (m_start m) = true
  | [] => tail_dirty string offset = true
  end ->
  fst (next decode string (mkGen offset cursor false))
  = Raise (Malformed offset).
Proof.
  intros Hit Hlen Hdirty. unfold next. cbn [g_finished g_offset g_cursor].
  destruct rest as [|m post].
  - rewrite (@finditer_exhausted _ _ _ Hit Hlen), Hdirty. reflexivity.
  - destruct fuel as [|f]; [discriminate|]. cbn [finditer] in Hit.
    destruct (finditer_next string cursor) as [m'|]; [|discriminate].
    injection Hit as -> _. rewrite Hdirty. reflexivity.
Qed.

Lemma nexts_app : forall n k g,
  nexts decode (n + k) string g =
  let '(es, g') := nexts decode n string g in
  let '(es', g'') := nexts decode k string g' in
  (es ++ es', g'').
Proof.
  induction n as [|n IH]; intros k g.
  - cbn. now destruct (nexts decode k string g).
  - cbn [Nat.add nexts]. destruct (next decode string g) as [e g1].
    rewrite IH. destruct (nexts decode n string g1) as [es g2].
    now destruct (nexts decode k string g2).
Qed.

Lemma consume_yields : forall ms g g' fuel r,
  nexts decode (length ms) string g = (yields decode ms, g') ->
  consume decode fuel string g' = Some r ->
  consume decode (length ms + fuel) string g =
  Some match r with
       | inl e => inl e
       | inr l => inr (map (pair_of decode) ms ++ l)
       end.
Proof.
  induction ms as [|m ms IH]; intros g g' fuel r Hn Hc.
  - cbn in Hn. injection Hn as <-. cbn. rewrite Hc. now destruct r.
  - cbn [length nexts] in Hn. cbn [length Nat.add consume].
    destruct (next decode string g) as [e g1].
    destruct (nexts decode (length ms) string g1) as [es g2] eqn:E2.
    cbn [yields map] in Hn. injection Hn as -> -> ->.
    rewrite (@IH g1 g' fuel r E2 Hc). now destruct r.
Qed.

Lemma malformed_after_nexts pre :
  malformed_after string pre ->
  length pre <= S (length string) /\
  exists g,
    nexts decode (length pre) string start = (yields decode pre, g) /\
    fst (next decode string g) = Raise (Malformed (offset_after 0 pre)).
Proof.
  intros [Hclean H].
  assert (Hm : exists rest, matches string = pre ++ rest /\
             match rest with
             | m :: _ => gap_dirty string (offset_after 0 pre) (m_start m) = true
             | [] => tail_dirty string (offset_after 0 pre) = true
             end).
  { destruct H as [(m & post & Hm & Hd)|[Hm Hd]].
    - now exists (m :: post).
    - exists []. now rewrite app_nil_r. }
  destruct Hm as (rest & Hm & Hd). split.
  - pose proof (finditer_length (S (length string)) string 0) as Hl.
    fold (matches string) in Hl. rewrite Hm, length_app in Hl. lia.
  - unfold matches in Hm.
    destruct (@nexts_clean pre _ _ _ _ Hm Hclean)
      as (fuel' & cursor' & Hn & Hrest & Hinv).
    eexists. split; [exact Hn|].
    apply (@next_dirty _ _ _ _ Hrest); [apply Hinv; lia|assumption].
Qed.

End Generator.






(** ** Empty quoted tokens *)

(** C1.  The text written for a document with an empty key, or an empty
    value, does not parse back to the document: the empty key comes back
    as [None], and so does the empty value. *)
Theorem roundtrip_loses_empty_strings : forall decode : str -> str,
  (dumps None None (as_items [([], Some (s "v"))]) = inr (q "''=>'v'") /\
   loads decode (q "''=>'v'") = Some (inr [(None, Some (decode (s "v")))]))
  /\
  (dumps None None (as_items [(s "k", Some [])]) = inr (q "'k'=>''") /\
   loads decode (q "'k'=>''") = Some (inr [(Some (decode (s "k")), None)])).
Proof. intros decode. repeat split. Qed.

(** C2.  The quoted empty value of [d=>""] is yielded as [None], the value
    that the bare NULL token has. *)
Theorem quoted_empty_value_is_none : forall decode : str -> str,
  loads decode (q "d=>''") = Some (inr [(Some (decode (s "d")), None)]) /\
  loads decode (q "d=>NULL") = Some (inr [(Some (decode (s "d")), None)]).
Proof. intros decode. split; reflexivity. Qed.

(** C6.  The quoted empty key of [""=>"v"] is yielded as [None], not as the
    empty string. *)
Theorem quoted_empty_key_is_none : forall decode : str -> str,
  fst (next decode (q "''=>'v'") start)
  = Yield (None, Some (decode (s "v"))).
Proof. intros decode. reflexivity. Qed.


(** ** Characters under IGNORECASE *)

Lemma cset_dquote a : cset_match true (CChar dquote) a = Ascii.eqb a dquote.
Proof. ascii_cases a. Qed.

Lemma cset_backslash a :
  cset_match true (CChar backslash) a = Ascii.eqb a backslash.
Proof. ascii_cases a. Qed.




Lemma cset_plain a :
  cset_match true (CNot [backslash; dquote]) a =
  negb (Ascii.eqb a backslash) && negb (Ascii.eqb a dquote).
Proof. ascii_cases a. Qed.

Lemma cset_noncomma a : cset_match true (CNot [comma]) a = noncomma a.
Proof. ascii_cases a. Qed.

Lemma cset_letter c a :
  cset_match true (CChar c) a = Ascii.eqb (lower a) (lower c).
Proof. reflexivity. Qed.

Lemma space_not_dquote a :
  implb (isspace a) (negb (Ascii.eqb a dquote)) = true.
Proof. ascii_cases a. Qed.



(** ** Results of the matcher *)

Lemma hd_error_app_some (A : Type) (l l' : list A) (a : A) :
  hd_error l = Some a -> hd_error (l ++ l') = Some a.
Proof. destruct l; [discriminate|intros H; exact H]. Qed.

Lemma hd_error_map (A B : Type) (f : A -> B) (l : list A) :
  hd_error (map f l) = option_map f (hd_error l).
Proof. now destruct l. Qed.

Lemma prepend_prepend u v r : prepend u (prepend v r) = prepend (u ++ v) r.
Proof. destruct r as [[w x] c]. cbn. now rewrite app_assoc. Qed.


Lemma andthen_cons k u x c l :
  andthen k ((u, x, c) :: l) = map (prepend u) (k x c) ++ andthen k l.
Proof. reflexivity. Qed.

Lemma andthen_one k u x c :
  andthen k [(u, x, c)] = map (prepend u) (k x c).
Proof. cbn. apply app_nil_r. Qed.

Lemma andthen_map k (g : res -> res) l :
  andthen k (map g l) = flat_map (fun r => andthen k [g r]) l.
Proof.
  induction l as [|r l IH]; [reflexivity|].
  cbn [map flat_map]. rewrite <- IH.
  destruct (g r) as [[u x] c]. now rewrite andthen_cons, andthen_one.
Qed.

Lemma hd_andthen k l u x c u' x' c' :
  hd_error l = Some (u, x, c) ->
  hd_error (k x c) = Some (u', x', c') ->
  hd_error (andthen k l) = Some (u ++ u', x', c').
Proof.
  destruct l as [|r l]; [discriminate|]. cbn [hd_error].
  intros [= ->] Hk. rewrite andthen_cons. apply hd_error_app_some.
  now rewrite hd_error_map, Hk.
Qed.

Section Heads.

Variable icase : bool.

Lemma rmatch_seq r1 r2 x c :
  rmatch icase (RSeq r1 r2) x c
  = andthen (rmatch icase r2) (rmatch icase r1 x c).
Proof. reflexivity. Qed.

Lemma rmatch_alt r1 r2 x c :
  rmatch icase (RAlt r1 r2) x c = rmatch icase r1 x c ++ rmatch icase r2 x c.
Proof. reflexivity. Qed.

Lemma rmatch_group n r x c :
  rmatch icase (RGroup n r) x c
  = map (fun m : res => let '(u, x', c') := m in (u, x', (n, u) :: c'))
        (rmatch icase r x c).
Proof. reflexivity. Qed.

Lemma rmatch_star r x c :
  rmatch icase (RStar r) x c = repeat_greedy (rmatch icase r) (length x) x c.
Proof. reflexivity. Qed.

Lemma rmatch_plus r x c :
  rmatch icase (RPlus r) x c
  = andthen (fun x' c' => repeat_greedy (rmatch icase r) (length x') x' c')
            (rmatch icase r x c).
Proof. reflexivity. Qed.

Lemma rmatch_plus_lazy r x c :
  rmatch icase (RPlusLazy r) x c
  = andthen (fun x' c' => repeat_lazy (rmatch icase r) (length x') x' c')
            (rmatch icase r x c).
Proof. reflexivity. Qed.

Lemma hd_seq r1 r2 x c u1 x1 c1 u2 x2 c2 :
  hd_error (rmatch icase r1 x c) = Some (u1, x1, c1) ->
  hd_error (rmatch icase r2 x1 c1) = Some (u2, x2, c2) ->
  hd_error (rmatch icase (RSeq r1 r2) x c) = Some (u1 ++ u2, x2, c2).
Proof. intros H1 H2. cbn [rmatch]. now apply hd_andthen with x1 c1. Qed.

Lemma hd_group n r x c u x' c' :
  hd_error (rmatch icase r x c) = Some (u, x', c') ->
  hd_error (rmatch icase (RGroup n r) x c) = Some (u, x', (n, u) :: c').
Proof. intros H. cbn [rmatch]. now rewrite hd_error_map, H. Qed.

Lemma hd_alt_l r1 r2 x c y :
  hd_error (rmatch icase r1 x c) = Some y ->
  hd_error (rmatch icase (RAlt r1 r2) x c) = Some y.
Proof. intros H. cbn [rmatch]. now apply hd_error_app_some. Qed.

Lemma alt_r r1 r2 x c :
  rmatch icase r1 x c = [] ->
  rmatch icase (RAlt r1 r2) x c = rmatch icase r2 x c.
Proof. intros H. cbn [rmatch]. now rewrite H. Qed.

Lemma set_match cs a x c :
  cset_match icase cs a = true ->
  rmatch icase (RSet cs) (a :: x) c = [([a], x, c)].
Proof. intros H. cbn [rmatch]. now rewrite H. Qed.

Lemma set_fail cs a x c :
  cset_match icase cs a = false -> rmatch icase (RSet cs) (a :: x) c = [].
Proof. intros H. cbn [rmatch]. now rewrite H. Qed.

Lemma seq_fail r1 r2 x c :
  rmatch icase r1 x c = [] -> rmatch icase (RSeq r1 r2) x c = [].
Proof. intros H. cbn [rmatch]. now rewrite H. Qed.

Lemma group_fail n r x c :
  rmatch icase r x c = [] -> rmatch icase (RGroup n r) x c = [].
Proof. intros H. cbn [rmatch]. now rewrite H. Qed.

(** A repetition stops where its body does not match. *)
Lemma repeat_greedy_stop step fuel x c :
  step x c = [] -> repeat_greedy step fuel x c = [([], x, c)].
Proof. intros H. destruct fuel; cbn; [reflexivity|]. now rewrite H. Qed.

Lemma progress_one a u x c :
  progress (a :: x) [(u, x, c)] = [(u, x, c)].
Proof.
  unfold progress. cbn [filter length].
  now rewrite (proj2 (Nat.ltb_lt _ _) (Nat.lt_succ_diag_r _)).
Qed.

Lemma progress_two a b u x c :
  progress (a :: b :: x) [(u, x, c)] = [(u, x, c)].
Proof.
  unfold progress. cbn [filter length].
  assert (H : (length x <? S (S (length x))) = true)
    by (apply Nat.ltb_lt; lia).
  now rewrite H.
Qed.

(** The first way a greedy repetition of a character class matches is the
    whole run of characters of the class. *)
Lemma greedy_run cs : forall run fuel rest c,
  forallb (cset_match icase cs) run = true ->
  length run <= fuel ->
  stops_at icase cs rest ->
  hd_error (repeat_greedy (rmatch icase (RSet cs)) fuel (run ++ rest) c)
  = Some (run, rest, c).
Proof.
  induction run as [|a run IH]; intros fuel rest c Hrun Hlen Hstop.
  - cbn [app]. rewrite repeat_greedy_stop; [reflexivity|].
    destruct rest as [|b rest]; [reflexivity|]. now apply set_fail.
  - destruct fuel as [|f]; [cbn in Hlen; lia|].
    cbn [forallb] in Hrun. apply andb_true_iff in Hrun.
    destruct Hrun as [Ha Hrun].
    cbn [repeat_greedy app]. rewrite (@set_match _ _ _ _ Ha), progress_one.
    rewrite andthen_one. apply hd_error_app_some.
    rewrite hd_error_map, IH; [reflexivity|assumption| |assumption].
    cbn in Hlen. lia.
Qed.

Lemma hd_star_run cs run rest c :
  forallb (cset_match icase cs) run = true ->
  stops_at icase cs rest ->
  hd_error (rmatch icase (RStar (RSet cs)) (run ++ rest) c)
  = Some (run, rest, c).
Proof.
  intros Hrun Hstop. cbn [rmatch]. apply greedy_run; try assumption.
  rewrite length_app. lia.
Qed.

Lemma hd_plus_run cs a run rest c :
  forallb (cset_match icase cs) (a :: run) = true ->
  stops_at icase cs rest ->
  hd_error (rmatch icase (RPlus (RSet cs)) ((a :: run) ++ rest) c)
  = Some (a :: run, rest, c).
Proof.
  intros Hrun Hstop. cbn [forallb] in Hrun. apply andb_true_iff in Hrun.
  destruct Hrun as [Ha Hrun].
  rewrite rmatch_plus. cbn [app].
  rewrite (@set_match _ _ _ _ Ha), andthen_one, hd_error_map.
  rewrite greedy_run; [reflexivity|assumption| |assumption].
  rewrite length_app. lia.
Qed.

(** A lazy repetition of a character class offers the prefixes of a run
    from the shortest on; the first one that the continuation [F]
    accepts wins. *)
Lemma lazy_run cs (F : res -> list res) y : forall run fuel rest c pre,
  forallb (cset_match icase cs) run = true ->
  length run <= fuel ->
  (forall i, i < length run ->
             F (pre ++ firstn i run, skipn i run ++ rest, c) = []) ->
  hd_error (F (pre ++ run, rest, c)) = Some y ->
  hd_error (flat_map F
              (map (prepend pre)
                   (repeat_lazy (rmatch icase (RSet cs)) fuel
                                (run ++ rest) c)))
  = Some y.
Proof.
  induction run as [|a run IH]; intros fuel rest c pre Hrun Hlen Hfail Hok.
  - cbn [app].
    assert (E : exists l, repeat_lazy (rmatch icase (RSet cs)) fuel rest c
                          = ([], rest, c) :: l)
      by (destruct fuel; cbn [repeat_lazy]; eauto).
    destruct E as [l ->]. cbn [map flat_map prepend].
    now apply hd_error_app_some.
  - destruct fuel as [|f]; [cbn in Hlen; lia|].
    cbn [forallb] in Hrun. apply andb_true_iff in Hrun.
    destruct Hrun as [Ha Hrun].
    cbn [repeat_lazy app]. rewrite (@set_match _ _ _ _ Ha), progress_one.
    rewrite andthen_one. cbn [map flat_map prepend].
    assert (H0 := Hfail 0 (Nat.lt_0_succ _)). cbn [firstn skipn app] in H0.
    rewrite H0. cbn [app]. rewrite map_map.
    rewrite (map_ext _ (prepend (pre ++ [a])))
      by (intros r; apply prepend_prepend).
    apply IH.
    + assumption.
    + cbn in Hlen. lia.
    + intros i Hi. apply Nat.succ_lt_mono in Hi.
      specialize (Hfail (S i) Hi).
      cbn [firstn skipn] in Hfail. now rewrite <- app_assoc.
    + now rewrite <- app_assoc.
Qed.

End Heads.

(** ** Matches of [PAIR_RE] *)

Lemma lit_match : forall p x c,
  rmatch true (lit p) x c =
  if istarts p x then [(firstn (length p) x, skipn (length p) x, c)] else [].
Proof.
  induction p as [|a p IH]; intros x c; [reflexivity|].
  destruct p as [|a' p].
  - destruct x as [|b x]; [reflexivity|].
    cbn [lit rmatch istarts length firstn skipn]. rewrite cset_letter.
    now destruct (Ascii.eqb (lower b) (lower a)).
  - change (lit (a :: a' :: p)) with (RSeq (RSet (CChar a)) (lit (a' :: p))).
    rewrite rmatch_seq. destruct x as [|b x]; [reflexivity|].
    change (istarts (a :: a' :: p) (b :: x))
      with (Ascii.eqb (lower b) (lower a) && istarts (a' :: p) x).
    destruct (Ascii.eqb (lower b) (lower a)) eqn:E.
    + rewrite set_match by (now rewrite cset_letter).
      rewrite andthen_one, IH. cbn [andb].
      now destruct (istarts (a' :: p) x).
    + rewrite set_fail by (now rewrite cset_letter). reflexivity.
Qed.

Lemma quoted_char_plain a x c :
  Ascii.eqb a backslash = false -> Ascii.eqb a dquote = false ->
  rmatch true QUOTED_CHAR (a :: x) c = [([a], x, c)].
Proof.
  intros Hb Hq. unfold QUOTED_CHAR. rewrite rmatch_alt.
  rewrite set_match by (now rewrite cset_plain, Hb, Hq).
  rewrite seq_fail; [reflexivity|].
  apply set_fail. now rewrite cset_backslash.
Qed.

Lemma quoted_char_escape b x c :
  Ascii.eqb b newline = false ->
  rmatch true QUOTED_CHAR (backslash :: b :: x) c = [([backslash; b], x, c)].
Proof.
  intros Hn. unfold QUOTED_CHAR. rewrite rmatch_alt.
  rewrite set_fail by reflexivity. rewrite rmatch_seq.
  rewrite set_match by reflexivity. rewrite andthen_one.
  rewrite set_match by (cbn; now rewrite Hn). reflexivity.
Qed.


Lemma quoted_body_run : forall fuel body rest c,
  quoted_ok body = true ->
  length body <= fuel ->
  hd_error (repeat_greedy (rmatch true QUOTED_CHAR) fuel
                          (body ++ dquote :: rest) c)
  = Some (body, dquote :: rest, c).
Proof.
  induction fuel as [|f IH]; intros body rest c Hok Hlen.
  - destruct body; [reflexivity|cbn in Hlen; lia].
  - destruct body as [|a x].
    + cbn [app]. now rewrite repeat_greedy_stop.
    + cbn [quoted_ok] in Hok.
      destruct (Ascii.eqb a dquote) eqn:Eq; [discriminate|].
      destruct (Ascii.eqb_spec a backslash) as [->|Hb].
      * destruct x as [|b x]; [discriminate|].
        apply andb_true_iff in Hok. destruct Hok as [Hn Hok].
        apply negb_true_iff in Hn.
        cbn [repeat_greedy app]. rewrite quoted_char_escape by assumption.
        rewrite progress_two, andthen_one. apply hd_error_app_some.
        rewrite hd_error_map, IH; [reflexivity|assumption|].
        cbn in Hlen. lia.
      * apply Ascii.eqb_neq in Hb.
        cbn [repeat_greedy app]. rewrite quoted_char_plain by assumption.
        rewrite progress_one, andthen_one. apply hd_error_app_some.
        rewrite hd_error_map, IH; [reflexivity|assumption|].
        cbn in Hlen. lia.
Qed.

Lemma quoted_app body rest :
  quoted body ++ rest = dquote :: body ++ dquote :: rest.
Proof. unfold quoted. cbn [app]. now rewrite <- app_assoc. Qed.

Lemma hd_quoted n body rest c :
  quoted_ok body = true ->
  hd_error (rmatch true (QUOTED n) (quoted body ++ rest) c)
  = Some (quoted body, rest, (n, body) :: c).
Proof.
  intros Hok. rewrite quoted_app. unfold QUOTED.
  apply (@hd_seq true _ _ _ _ [dquote] (body ++ dquote :: rest) c
                 (body ++ [dquote]) rest ((n, body) :: c)).
  - reflexivity.
  - apply (@hd_seq true _ _ _ _ body (dquote :: rest) ((n, body) :: c)
                   [dquote] rest ((n, body) :: c)).
    + apply hd_group. rewrite rmatch_star. apply quoted_body_run.
      * assumption.
      * rewrite length_app. lia.
    + reflexivity.
Qed.

Lemma quoted_fail n a x c :
  Ascii.eqb a dquote = false -> rmatch true (QUOTED n) (a :: x) c = [].
Proof.
  intros H. unfold QUOTED. apply seq_fail, set_fail.
  now rewrite cset_dquote.
Qed.

(** The arrow and the whitespace around it. *)

Lemma hd_arrow w2 w3 y c :
  forallb isspace w2 = true -> forallb isspace w3 = true ->
  starts_nonspace y ->
  hd_error (rmatch true ARROW_RE (w2 ++ s "=>" ++ w3 ++ y) c)
  = Some (w2 ++ s "=>" ++ w3, y, c).
Proof.
  intros H2 H3 Hy. unfold ARROW_RE.
  apply (@hd_seq true _ _ _ _ w2 (s "=>" ++ w3 ++ y) c (s "=>" ++ w3) y c).
  - apply hd_star_run; [exact H2|reflexivity].
  - apply (@hd_seq true _ _ _ _ (s "=>") (w3 ++ y) c w3 y c).
    + rewrite lit_match. reflexivity.
    + apply hd_star_run; [exact H3|].
      destruct y as [|a y]; [exact I|exact Hy].
Qed.

Lemma arrow_fail r a x c :
  isspace a = false -> starts_arrow (a :: x) = false ->
  rmatch true (RSeq ARROW_RE r) (a :: x) c = [].
Proof.
  intros Ha Hx. apply seq_fail. unfold ARROW_RE. rewrite rmatch_seq.
  rewrite rmatch_star, repeat_greedy_stop by (now apply set_fail).
  rewrite andthen_one. rewrite seq_fail; [reflexivity|].
  rewrite lit_match. fold (starts_arrow (a :: x)). now rewrite Hx.
Qed.

(** The end of a pair. *)

Lemma hd_tail more c :
  hd_error (rmatch true TAIL_RE (tail_text more) c)
  = Some (tail_sep more, tail_rest more, c).
Proof. destruct more as [r|]; reflexivity. Qed.

Lemma stops_at_tail more : stops_at true (CNot [comma]) (tail_text more).
Proof. destruct more as [r|]; [reflexivity|exact I]. Qed.

(** The value. *)

Lemma null_letter a :
  implb (Ascii.eqb (lower a) (lower "N"%char))
        (negb (Ascii.eqb a dquote) && negb (isspace a)) = true.
Proof. ascii_cases a. Qed.

Lemma space_lower_greater a :
  implb (isspace a) (negb (Ascii.eqb (lower a) (lower ">"%char))) = true.
Proof. ascii_cases a. Qed.

Lemma istarts_app_true : forall p t tl,
  istarts p t = true -> istarts p (t ++ tl) = true.
Proof.
  induction p as [|a p IH]; intros t tl H; [reflexivity|].
  destruct t as [|b t]; [discriminate|].
  cbn [istarts app] in H |- *. apply andb_true_iff in H.
  destruct H as [-> H]. now apply IH.
Qed.

Lemma istarts_app_false : forall p t tl,
  istarts p t = false ->
  (forall i, i < length p -> istarts (skipn i p) tl = false) ->
  istarts p (t ++ tl) = false.
Proof.
  induction p as [|a p IH]; intros t tl H Htl; [discriminate|].
  destruct t as [|b t].
  - exact (Htl 0 (Nat.lt_0_succ _)).
  - cbn [istarts app] in H |- *.
    destruct (Ascii.eqb (lower b) (lower a)); [|reflexivity].
    cbn [andb] in H |- *. apply IH; [assumption|].
    intros i Hi. apply (Htl (S i)). cbn. lia.
Qed.

Lemma null_not_in_tail more i :
  i < 4 -> istarts (skipn i (s "NULL")) (tail_text more) = false.
Proof.
  intros Hi.
  destruct more as [r|];
    (destruct i as [|[|[|[|i]]]]; [reflexivity..|lia]).
Qed.

Lemma forallb_eq (A : Type) (f g : A -> bool) (l : list A) :
  (forall a, f a = g a) -> forallb f l = forallb g l.
Proof.
  intros H. induction l as [|a l IH]; [reflexivity|].
  cbn. now rewrite H, IH.
Qed.

Lemma hd_value v more c :
  value_ok v = true ->
  hd_error (rmatch true VALUE_RE (value_text v ++ tail_text more) c)
  = Some (value_text v, tail_text more, value_groups v ++ c).
Proof.
  intros Hok. unfold VALUE_RE. destruct v as [body|sp|t]; cbn [value_ok] in Hok.
  - apply hd_alt_l. cbn [value_text value_groups app]. now apply hd_quoted.
  - apply andb_true_iff in Hok. destruct Hok as [Hlen Hnull].
    apply Nat.eqb_eq in Hlen.
    destruct sp as [|a [|b [|d [|e [|z sp]]]]]; try discriminate Hlen.
    cbn [value_text value_groups].
    assert (Ha : Ascii.eqb (lower a) (lower "N"%char) = true).
    { unfold starts_null in Hnull. cbn [s list_ascii_of_string istarts] in Hnull.
      apply andb_true_iff in Hnull. apply Hnull. }
    pose proof (null_letter a) as Hq. rewrite Ha in Hq. cbn [implb] in Hq.
    apply andb_true_iff in Hq. destruct Hq as [Hq _].
    apply negb_true_iff in Hq.
    cbn [app]. rewrite alt_r by (now apply quoted_fail).
    apply hd_alt_l, hd_group. rewrite lit_match.
    change (a :: b :: d :: e :: tail_text more)
      with ([a; b; d; e] ++ tail_text more).
    fold (starts_null ([a; b; d; e] ++ tail_text more)).
    unfold starts_null in *. rewrite istarts_app_true by assumption.
    reflexivity.
  - destruct t as [|a x]; [discriminate|].
    apply andb_true_iff in Hok. destruct Hok as [Hok Hnull].
    apply andb_true_iff in Hok. destruct Hok as [Hok Hcomma].
    apply andb_true_iff in Hok. destruct Hok as [Hq Hsp].
    apply negb_true_iff in Hq, Hnull.
    cbn [value_text value_groups].
    change ((a :: x) ++ tail_text more) with (a :: (x ++ tail_text more)).
    rewrite alt_r by (now apply quoted_fail).
    rewrite alt_r.
    + change (a :: (x ++ tail_text more)) with ((a :: x) ++ tail_text more).
      apply hd_group, hd_plus_run; [|apply stops_at_tail].
      rewrite (@forallb_eq _ _ noncomma (a :: x) cset_noncomma).
      exact Hcomma.
    + apply group_fail. rewrite lit_match.
      change (a :: (x ++ tail_text more)) with ((a :: x) ++ tail_text more).
      rewrite istarts_app_false; [reflexivity|exact Hnull|].
      intros i Hi. now apply null_not_in_tail.
Qed.

Lemma value_starts_nonspace v tl :
  value_ok v = true -> starts_nonspace (value_text v ++ tl).
Proof.
  intros Hok. destruct v as [body|sp|t]; cbn [value_ok] in Hok.
  - reflexivity.
  - destruct sp as [|a sp]; [discriminate|].
    apply andb_true_iff in Hok. destruct Hok as [_ Hnull].
    assert (Ha : Ascii.eqb (lower a) (lower "N"%char) = true).
    { unfold starts_null in Hnull. cbn [s list_ascii_of_string istarts] in Hnull.
      apply andb_true_iff in Hnull. apply Hnull. }
    pose proof (null_letter a) as Hq. rewrite Ha in Hq. cbn [implb] in Hq.
    apply andb_true_iff in Hq. destruct Hq as [_ Hq].
    apply negb_true_iff in Hq. exact Hq.
  - destruct t as [|a x]; [discriminate|].
    apply andb_true_iff in Hok. destruct Hok as [Hok _].
    apply andb_true_iff in Hok. destruct Hok as [Hok _].
    apply andb_true_iff in Hok. destruct Hok as [_ Hsp].
    apply negb_true_iff in Hsp. exact Hsp.
Qed.

(** Everything after the key. *)

Lemma hd_after_key w2 w3 v more c :
  forallb isspace w2 = true -> forallb isspace w3 = true ->
  value_ok v = true ->
  hd_error (rmatch true AFTER_KEY
              (w2 ++ s "=>" ++ w3 ++ value_text v ++ tail_text more) c)
  = Some ((w2 ++ s "=>" ++ w3) ++ value_text v ++ tail_sep more,
          tail_rest more, value_groups v ++ c).
Proof.
  intros H2 H3 Hv. unfold AFTER_KEY.
  apply (@hd_seq true _ _ _ _ (w2 ++ s "=>" ++ w3)
                 (value_text v ++ tail_text more) c
                 (value_text v ++ tail_sep more) (tail_rest more)
                 (value_groups v ++ c)).
  - apply hd_arrow; try assumption. now apply value_starts_nonspace.
  - apply (@hd_seq true _ _ _ _ (value_text v) (tail_text more)
                   (value_groups v ++ c)).
    + now apply hd_value.
    + apply hd_tail.
Qed.

(** The bare key: the shortest run that the arrow can follow. *)

Lemma starts_arrow_suffix : forall t i R,
  has_arrow t = false -> i < length t -> not_greater R ->
  starts_arrow (skipn i t ++ R) = false.
Proof.
  induction t as [|b t IH]; intros i R H Hi HR; [cbn in Hi; lia|].
  cbn [has_arrow] in H. apply orb_false_iff in H. destruct H as [H0 H].
  destruct i as [|i].
  - cbn [skipn]. destruct t as [|b2 t].
    + unfold starts_arrow. cbn [app s list_ascii_of_string istarts].
      destruct R as [|r R]; [apply andb_false_r|].
      cbn in HR. rewrite HR. apply andb_false_r.
    + exact H0.
  - cbn [skipn]. apply IH; [assumption| |assumption]. cbn in Hi. lia.
Qed.

Lemma nonspace_suffix : forall t i,
  forallb nonspace t = true -> i < length t ->
  exists b y, skipn i t = b :: y /\ isspace b = false.
Proof.
  induction t as [|b t IH]; intros i H Hi; [cbn in Hi; lia|].
  cbn [forallb] in H. apply andb_true_iff in H. destruct H as [Hb H].
  destruct i as [|i].
  - exists b, t. split; [reflexivity|]. now apply negb_true_iff in Hb.
  - cbn [skipn]. apply IH; [assumption|]. cbn in Hi. lia.
Qed.

Lemma hd_key_bare a x R (K : str -> caps -> list res) u x' c' :
  Ascii.eqb a dquote = false ->
  forallb nonspace (a :: x) = true ->
  (forall i c, i < length x -> K (skipn i x ++ R) c = []) ->
  hd_error (K R [("kb"%string, a :: x)]) = Some (u, x', c') ->
  hd_error (andthen K (rmatch true KEY_RE ((a :: x) ++ R) []))
  = Some ((a :: x) ++ u, x', c').
Proof.
  intros Hq Hns Hfail Hk. cbn [forallb] in Hns.
  apply andb_true_iff in Hns. destruct Hns as [Ha Hx].
  unfold KEY_RE. cbn [app]. rewrite alt_r by (now apply quoted_fail).
  rewrite rmatch_group, rmatch_plus_lazy.
  rewrite set_match by exact Ha. rewrite andthen_one, andthen_map.
  apply (@lazy_run true CNonSpace).
  - exact Hx.
  - rewrite length_app. lia.
  - intros i Hi. rewrite andthen_one, Hfail by assumption. reflexivity.
  - rewrite andthen_one, hd_error_map. cbn [app]. rewrite Hk. reflexivity.
Qed.

(** The first match of [PAIR_RE] at the key of a well-formed pair is that
    pair, up to and including the comma after it. *)
Lemma hd_pair k w2 w3 v more :
  key_ok k = true ->
  forallb isspace w2 = true -> forallb isspace w3 = true ->
  value_ok v = true ->
  hd_error (rmatch true PAIR_RE
              (key_text k ++ w2 ++ s "=>" ++ w3
               ++ value_text v ++ tail_text more) [])
  = Some (key_text k ++ (w2 ++ s "=>" ++ w3)
          ++ value_text v ++ tail_sep more,
          tail_rest more, value_groups v ++ key_groups k).
Proof.
  intros Hk H2 H3 Hv. unfold PAIR_RE. fold AFTER_KEY.
  destruct k as [body|t]; cbn [key_ok] in Hk; cbn [key_text key_groups].
  - apply (@hd_seq true _ _ _ _ (quoted body)
                   (w2 ++ s "=>" ++ w3 ++ value_text v ++ tail_text more)
                   [("kq"%string, body)]).
    + apply hd_alt_l. now apply hd_quoted.
    + now apply hd_after_key.
  - destruct t as [|a x]; [discriminate|].
    apply andb_true_iff in Hk. destruct Hk as [Hk Harrow].
    apply andb_true_iff in Hk. destruct Hk as [Hq Hns].
    apply negb_true_iff in Hq, Harrow.
    rewrite rmatch_seq. apply hd_key_bare; try assumption.
    + intros i c Hi.
      destruct (@nonspace_suffix x i) as (b & y & E & Hb); try assumption.
      { cbn [forallb] in Hns. apply andb_true_iff in Hns. apply Hns. }
      assert (Hs : starts_arrow
                     (skipn i x ++ w2 ++ s "=>" ++ w3
                      ++ value_text v ++ tail_text more) = false).
      { apply starts_arrow_suffix; try assumption.
        destruct w2 as [|w w2]; [reflexivity|].
        cbn [forallb] in H2. apply andb_true_iff in H2.
        destruct H2 as [Hw _]. pose proof (space_lower_greater w) as Hg.
        rewrite Hw in Hg. cbn in Hg |- *. now apply negb_true_iff in Hg. }
      rewrite E in Hs |- *. cbn [app] in Hs |- *.
      now apply arrow_fail.
    + now apply hd_after_key.
Qed.

(** ** Parsing a well-formed text *)

Lemma pair_no_match_at_space a x :
  isspace a = true -> rmatch true PAIR_RE (a :: x) [] = [].
Proof.
  intros Ha. unfold PAIR_RE. apply seq_fail. unfold KEY_RE.
  rewrite rmatch_alt, quoted_fail.
  - apply group_fail. rewrite rmatch_plus_lazy.
    rewrite set_fail; [reflexivity|]. cbn. now rewrite Ha.
  - pose proof (space_not_dquote a) as H. rewrite Ha in H.
    now apply negb_true_iff in H.
Qed.

Lemma search_skip_space : forall w x pos,
  forallb isspace w = true ->
  search true PAIR_RE (w ++ x) pos = search true PAIR_RE x (pos + length w).
Proof.
  induction w as [|a w IH]; intros x pos Hw.
  - cbn. now rewrite Nat.add_0_r.
  - cbn [forallb] in Hw. apply andb_true_iff in Hw. destruct Hw as [Ha Hw].
    cbn [app search]. unfold match_at at 1.
    rewrite pair_no_match_at_space by assumption.
    rewrite IH by assumption. cbn [length]. f_equal. lia.
Qed.

Lemma search_hit x pos u x' c :
  hd_error (rmatch true PAIR_RE x []) = Some (u, x', c) ->
  search true PAIR_RE x pos = Some (mkMatch pos (pos + length u) c).
Proof.
  intros H.
  assert (E : match_at true PAIR_RE x pos
              = Some (mkMatch pos (pos + length u) c)).
  { unfold match_at. destruct (rmatch true PAIR_RE x []) as [|[[u0 y0] c0] l];
      [discriminate|]. now injection H as -> _ ->. }
  destruct x; cbn [search]; now rewrite E.
Qed.

Lemma lstrip_spaces w : forallb isspace w = true -> lstrip w = [].
Proof.
  induction w as [|a w IH]; intros H; [reflexivity|].
  cbn [forallb] in H. apply andb_true_iff in H. destruct H as [Ha H].
  cbn. rewrite Ha. now apply IH.
Qed.

Lemma strip_spaces w : forallb isspace w = true -> strip w = [].
Proof. intros H. unfold strip. now rewrite lstrip_spaces. Qed.

Lemma skipn_length_app (A : Type) (x y : list A) :
  skipn (length x) (x ++ y) = y.
Proof. induction x as [|a x IH]; [reflexivity|exact IH]. Qed.

Lemma firstn_length_app (A : Type) (x y : list A) :
  firstn (length x) (x ++ y) = x.
Proof. induction x as [|a x IH]; [reflexivity|]. cbn. now rewrite IH. Qed.

Lemma loose_cons it l :
  loose_text (it :: l) =
  item_text it ++ tail_text match l with
                            | [] => None
                            | _ :: _ => Some (loose_text l)
                            end.
Proof.
  unfold loose_text. destruct l as [|it' l]; cbn [map join tail_text].
  - now rewrite app_nil_r.
  - reflexivity.
Qed.

Section WellFormed.

Variable decode : str -> str.

(** One call of [next] at the start of a well-formed item. *)
Lemma next_item done it more :
  item_ok it = true ->
  next decode (done ++ item_text it ++ tail_text more)
       (mkGen (length done) (length done) false)
  = (Yield (meaning decode it),
     mkGen (length (done ++ item_text it ++ tail_sep more))
           (length (done ++ item_text it ++ tail_sep more)) false).
Proof.
  intros Hok. unfold item_ok in Hok.
  apply andb_true_iff in Hok. destruct Hok as [Hok Hv].
  apply andb_true_iff in Hok. destruct Hok as [Hok H3].
  apply andb_true_iff in Hok. destruct Hok as [Hok H2].
  apply andb_true_iff in Hok. destruct Hok as [H1 Hk].
  destruct it as [w1 k w2 w3 v]. cbn [i_lead i_key i_left i_right i_value] in *.
  unfold next. cbn [g_finished g_offset g_cursor]. unfold finditer_next.
  assert (Hlt : (length (done ++ item_text (mkItem w1 k w2 w3 v)
                         ++ tail_text more) <? length done) = false).
  { apply Nat.ltb_ge. rewrite length_app. lia. }
  rewrite Hlt, skipn_length_app.
  unfold item_text, pair_text.
  cbn [i_lead i_key i_left i_right i_value].
  replace ((w1 ++ key_text k ++ w2 ++ s "=>" ++ w3 ++ value_text v)
           ++ tail_text more)
    with (w1 ++ key_text k ++ w2 ++ s "=>" ++ w3 ++ value_text v
          ++ tail_text more)
    by (now rewrite <- !app_assoc).
  rewrite search_skip_space by assumption.
  rewrite (@search_hit _ _ _ _ _ (hd_pair k w2 w3 v more Hk H2 H3 Hv)).
  unfold gap_dirty. cbn [m_start m_end m_groups].
  assert (Hge : (length done + length w1 <? length done) = false)
    by (apply Nat.ltb_ge; lia).
  rewrite Hge. unfold slice.
  replace (length done + length w1 - length done) with (length w1) by lia.
  rewrite skipn_length_app, firstn_length_app, strip_spaces by assumption.
  cbn [truthy orb]. unfold advance. cbn [m_start m_end].
  set (u := key_text k ++ (w2 ++ s "=>" ++ w3)
            ++ value_text v ++ tail_sep more).
  assert (Hu : 0 < length u).
  { unfold u. rewrite !length_app. cbn [length s list_ascii_of_string]. lia. }
  assert (Hne : (length done + length w1 + length u
                 =? length done + length w1) = false)
    by (apply Nat.eqb_neq; lia).
  rewrite Hne.
  assert (Hend : length done + length w1 + length u
                 = length (done ++ (w1 ++ key_text k ++ w2 ++ s "=>" ++ w3
                                    ++ value_text v) ++ tail_sep more)).
  { unfold u. rewrite !length_app. lia. }
  rewrite Hend. reflexivity.
Qed.

(** One call of [next] at the end of the input. *)
Lemma next_end done :
  next decode (done ++ []) (mkGen (length done) (length done) false)
  = (StopIteration, mkGen (length done) (length done) true).
Proof.
  unfold next. cbn [g_finished g_offset g_cursor].
  unfold finditer_next, tail_dirty.
  assert (Hlt : (length (done ++ []) <? length done) = false)
    by (apply Nat.ltb_ge; rewrite length_app; lia).
  rewrite Hlt, skipn_length_app. reflexivity.
Qed.

Lemma consume_loose : forall l done fuel,
  forallb item_ok l = true ->
  length l < fuel ->
  consume decode fuel (done ++ loose_text l)
          (mkGen (length done) (length done) false)
  = Some (inr (map (meaning decode) l)).
Proof.
  induction l as [|it l IH]; intros done fuel Hok Hfuel;
    (destruct fuel as [|f]; [lia|]); cbn [consume].
  - change (loose_text []) with (@nil ascii). now rewrite next_end.
  - cbn [forallb] in Hok. apply andb_true_iff in Hok.
    destruct Hok as [Hit Hok].
    rewrite loose_cons, next_item by assumption.
    set (more := match l with [] => None | _ :: _ => Some (loose_text l) end).
    assert (E : done ++ item_text it ++ tail_text more
                = (done ++ item_text it ++ tail_sep more) ++ loose_text l).
    { unfold more. destruct l as [|it' l]; cbn [tail_text tail_sep].
      - change (loose_text []) with (@nil ascii). now rewrite !app_nil_r.
      - rewrite <- !app_assoc. reflexivity. }
    rewrite E, IH; [reflexivity|assumption|]. cbn in Hfuel. lia.
Qed.

Lemma loose_length : forall l, length l <= length (loose_text l).
Proof.
  induction l as [|it l IH]; [cbn; lia|].
  rewrite loose_cons. unfold item_text, pair_text. rewrite !length_app.
  destruct l as [|it' l]; cbn [tail_text length s list_ascii_of_string] in *;
    lia.
Qed.

Lemma loads_loose l :
  forallb item_ok l = true ->
  loads decode (loose_text l) = Some (inr (map (meaning decode) l)).
Proof.
  intros Hok. unfold loads.
  apply (@consume_loose l [] (S (S (length (loose_text l)))) Hok).
  pose proof (loose_length l). lia.
Qed.

End WellFormed.

Lemma compact_ok it : item_ok it = true -> item_ok (compact it) = true.
Proof.
  unfold item_ok, compact. cbn [i_lead i_key i_left i_right i_value forallb].
  intros H. repeat (apply andb_true_iff in H; destruct H as [H ?]).
  repeat (apply andb_true_iff; split); auto.
Qed.



(** ** Round trip of non-empty strings *)

Lemma quoted_ok_escape : forall x, quoted_ok (escape x) = true.
Proof.
  induction x as [|a x IH]; [reflexivity|].
  rewrite escape_cons. unfold escape_char.
  destruct (Ascii.eqb_spec a backslash) as [->|Hb].
  - cbn. exact IH.
  - destruct (Ascii.eqb_spec a dquote) as [->|Hq].
    + cbn. exact IH.
    + apply Ascii.eqb_neq in Hb, Hq. cbn [app quoted_ok].
      now rewrite Hq, Hb.
Qed.

Lemma escape_truthy x : truthy (escape x) = truthy x.
Proof.
  destruct x as [|a x]; [reflexivity|].
  rewrite escape_cons. unfold escape_char.
  destruct (Ascii.eqb a backslash); [reflexivity|].
  destruct (Ascii.eqb a dquote); reflexivity.
Qed.

Lemma present_truthy x : present (Some x) = truthy x.
Proof. now destruct x. Qed.

Lemma render_pair_item p : render_pair p = item_text (as_item p).
Proof.
  destruct p as [k [v|]]; unfold render_pair, item_text, pair_text, as_item;
    cbn [fst snd i_lead i_key i_left i_right i_value key_text value_text];
    unfold quoted; app_norm; reflexivity.
Qed.

Lemma render_loose d : render d = loose_text (map as_item d).
Proof.
  unfold render, loose_text. rewrite map_map. f_equal.
  apply map_ext. intros p. apply render_pair_item.
Qed.

Lemma as_item_ok p : item_ok (as_item p) = true.
Proof.
  destruct p as [k [v|]]; unfold item_ok, as_item;
    cbn [fst snd i_lead i_key i_left i_right i_value forallb key_ok value_ok
         andb]; rewrite ?quoted_ok_escape; reflexivity.
Qed.

Lemma as_item_meaning decode p :
  nonempty_strings p = true ->
  meaning decode (as_item p)
  = (Some (decode (fst p)), option_map decode (snd p)).
Proof.
  destruct p as [k v]. unfold nonempty_strings. cbn [fst snd].
  intros H. apply andb_true_iff in H. destruct H as [Hk Hv].
  unfold meaning, pair_of, as_item, item_groups.
  cbn [fst snd m_groups i_key i_value key_groups value_groups].
  destruct v as [v|];
    cbn [value_groups app group String.eqb Ascii.eqb Bool.eqb andb].
  - rewrite !present_truthy, !escape_truthy, Hk, Hv.
    cbn [option_map]. now rewrite !unescape_escape.
  - rewrite !present_truthy, !escape_truthy, Hk.
    cbn [option_map present]. now rewrite !unescape_escape.
Qed.



(** ** Termination *)

Section Total.

Variable decode : str -> str.
Variable string : str.

Lemma consume_total : forall fuel g,
  1 <= fuel -> length string + 2 <= fuel + g_cursor g ->
  exists r,
    consume decode fuel string g = Some r /\
    match r with
    | inl e => exists offset, e = Malformed offset
    | inr _ => True
    end.
Proof.
  induction fuel as [|f IH]; intros g H1 Hlen; [lia|].
  cbn [consume]. unfold next.
  destruct (g_finished g); [exists (inr []); now split|].
  destruct (finditer_next string (g_cursor g)) as [m|] eqn:En.
  - destruct (gap_dirty string (g_offset g) (m_start m)).
    + exists (inl (Malformed (g_offset g))). split; [reflexivity|eauto].
    + apply finditer_next_bounds in En.
      destruct (IH (mkGen (m_end m) (advance m) false)) as ([e|l] & -> & Hr).
      * lia.
      * cbn [g_cursor]. lia.
      * exists (inl e). now split.
      * exists (inr (pair_of decode m :: l)). now split.
  - destruct (tail_dirty string (g_offset g)).
    + exists (inl (Malformed (g_offset g))). split; [reflexivity|eauto].
    + exists (inr []). now split.
Qed.

End Total.


(** ** The examples of the docstrings *)

(** The examples that the docstrings of [dumps], [loads], [parse],
    [unescape] and [escape] give, evaluated on the embedding. *)
Theorem docstring_examples :
  dumps None None [(PyStr (s "a"), PyStr (q "1 'quotes'"))]
  = inr (q "'a'=>'1 \'quotes\''")
  /\ dumps None None [(PyStr (s "key"), PyStr (s "value"));
                      (PyStr (s "k"), PyStr (s "v"))]
     = inr (q "'key'=>'value','k'=>'v'")
  /\ dumps None None [(PyStr (s "null"), PyNone)] = inr (q "'null'=>NULL")
  /\ dumps None None [(PyStr (s "a"), PyOther 1); (PyStr (s "b"), PyOther 2)]
     = inl (ValueNotString (PyOther 1) (s "a"))
  /\ dumps None (Some (fun o => match o with
                                | PyOther 1 => s "1"
                                | _ => s "2"
                                end))
           [(PyStr (s "a"), PyOther 1); (PyStr (s "b"), PyOther 2)]
     = inr (q "'a'=>'1','b'=>'2'")
  /\ loads ascii_codec (s "a=>1")
     = Some (inr [(Some (s "a"), Some (s "1"))])
  /\ loads ascii_codec (s "a=>1, b=>2")
     = Some (inr [(Some (s "a"), Some (s "1")); (Some (s "b"), Some (s "2"))])
  /\ loads ascii_codec (q "'return_type'=>'tuple'")
     = Some (inr [(Some (s "return_type"), Some (s "tuple"))])
  /\ loads ascii_codec (q "a=>1, b => 2, c => null, d => 'NULL'")
     = Some (inr [(Some (s "a"), Some (s "1")); (Some (s "b"), Some (s "2"));
                  (Some (s "c"), None); (Some (s "d"), Some (s "NULL"))])
  /\ loads ascii_codec (q "'a=>1'=>'\'b\'=>2',")
     = Some (inr [(Some (s "a=>1"), Some (q "'b'=>2"))])
  /\ unescape (q "abc\'def\\ghi\ajkl") = q "abc'def\ghiajkl"
  /\ unescape (q "\'b\'=>2") = q "'b'=>2"
  /\ escape (q "string with 'quotes'") = q "string with \'quotes\'".
Proof. repeat split. Qed.

(** * More of the module *)

(** ** Every match lies inside the text *)

Lemma in_andthen k l (r : res) :
  In r (andthen k l) ->
  exists u1 x1 c1 u2 x2 c2,
    In (u1, x1, c1) l /\ In (u2, x2, c2) (k x1 c1)
    /\ r = (u1 ++ u2, x2, c2).
Proof.
  unfold andthen. intros H. apply in_flat_map in H.
  destruct H as ([[u1 x1] c1] & H1 & H2). apply in_map_iff in H2.
  destruct H2 as ([[u2 x2] c2] & <- & H2).
  now exists u1, x1, c1, u2, x2, c2.
Qed.

Lemma in_progress x l (r : res) : In r (progress x l) -> In r l.
Proof. unfold progress. intros H. now apply filter_In in H. Qed.

Section Split.

Variable step : str -> caps -> list res.
Hypothesis step_split :
  forall x c u x' c', In (u, x', c') (step x c) -> x = u ++ x'.

Lemma repeat_greedy_split : forall fuel x c u x' c',
  In (u, x', c') (repeat_greedy step fuel x c) -> x = u ++ x'.
Proof.
  induction fuel as [|f IH]; intros x c u x' c' H; cbn [repeat_greedy] in H.
  - destruct H as [[= <- <- <-]|[]]. reflexivity.
  - apply in_app_iff in H. destruct H as [H|[[= <- <- <-]|[]]]; [|reflexivity].
    apply in_andthen in H.
    destruct H as (u1 & x1 & c1 & u2 & x2 & c2 & H1 & H2 & [= -> -> ->]).
    apply in_progress, step_split in H1. apply IH in H2.
    subst. now rewrite app_assoc.
Qed.

Lemma repeat_lazy_split : forall fuel x c u x' c',
  In (u, x', c') (repeat_lazy step fuel x c) -> x = u ++ x'.
Proof.
  induction fuel as [|f IH]; intros x c u x' c' H; cbn [repeat_lazy] in H.
  - destruct H as [[= <- <- <-]|[]]. reflexivity.
  - destruct H as [[= <- <- <-]|H]; [reflexivity|].
    apply in_andthen in H.
    destruct H as (u1 & x1 & c1 & u2 & x2 & c2 & H1 & H2 & [= -> -> ->]).
    apply in_progress, step_split in H1. apply IH in H2.
    subst. now rewrite app_assoc.
Qed.

End Split.

(** What a match consumed and what it left make up the text it was given. *)
Lemma rmatch_split icase : forall r x c u x' c',
  In (u, x', c') (rmatch icase r x c) -> x = u ++ x'.
Proof.
  induction r as [| cs | | r1 IH1 r2 IH2 | r1 IH1 r2 IH2 | r IH | r IH | r IH
                 | n r IH]; intros x c u x' c' H.
  - destruct H as [[= <- <- <-]|[]]. reflexivity.
  - cbn [rmatch] in H. destruct x as [|a x]; [destruct H|].
    destruct (cset_match icase cs a); [|destruct H].
    destruct H as [[= <- <- <-]|[]]. reflexivity.
  - cbn [rmatch] in H. destruct (at_end x); [|destruct H].
    destruct H as [[= <- <- <-]|[]]. reflexivity.
  - rewrite rmatch_seq in H. apply in_andthen in H.
    destruct H as (u1 & x1 & c1 & u2 & x2 & c2 & H1 & H2 & [= -> -> ->]).
    apply IH1 in H1. apply IH2 in H2. subst. now rewrite app_assoc.
  - rewrite rmatch_alt in H. apply in_app_iff in H.
    destruct H as [H|H]; [now apply IH1 in H|now apply IH2 in H].
  - rewrite rmatch_star in H.
    now apply (repeat_greedy_split (rmatch icase r) IH) in H.
  - rewrite rmatch_plus in H. apply in_andthen in H.
    destruct H as (u1 & x1 & c1 & u2 & x2 & c2 & H1 & H2 & [= -> -> ->]).
    apply IH in H1. apply (repeat_greedy_split (rmatch icase r) IH) in H2.
    subst. now rewrite app_assoc.
  - rewrite rmatch_plus_lazy in H. apply in_andthen in H.
    destruct H as (u1 & x1 & c1 & u2 & x2 & c2 & H1 & H2 & [= -> -> ->]).
    apply IH in H1. apply (repeat_lazy_split (rmatch icase r) IH) in H2.
    subst. now rewrite app_assoc.
  - rewrite rmatch_group in H. apply in_map_iff in H.
    destruct H as ([[u0 x0] c0] & [= <- <- <-] & H). now apply IH in H.
Qed.

Lemma search_end_bound icase r : forall x pos m,
  search icase r x pos = Some m -> m_end m <= pos + length x.
Proof.
  assert (Hat : forall x pos m, match_at icase r x pos = Some m ->
                                m_end m <= pos + length x).
  { intros x pos m H. unfold match_at in H.
    destruct (rmatch icase r x []) as [|[[u y] c] l] eqn:E; [discriminate|].
    injection H as <-. cbn [m_end].
    assert (Hs : x = u ++ y) by (apply (@rmatch_split icase r x [] u y c);
                                 rewrite E; now left).
    apply (f_equal (@length ascii)) in Hs. rewrite length_app in Hs. lia. }
  induction x as [|a x IH]; intros pos m H; cbn [search] in H.
  - destruct (match_at icase r [] pos) eqn:E; [|discriminate].
    injection H as <-. now apply Hat.
  - destruct (match_at icase r (a :: x) pos) eqn:E.
    + injection H as <-. now apply Hat.
    + apply IH in H. cbn [length]. lia.
Qed.

Lemma finditer_next_end string cursor m :
  finditer_next string cursor = Some m -> m_end m <= length string.
Proof.
  unfold finditer_next. intros H.
  destruct (Nat.ltb_spec (length string) cursor) as [Hlt|Hle]; [discriminate|].
  apply search_end_bound in H. rewrite length_skipn in H. lia.
Qed.

Section Offsets.

Variable decode : str -> str.
Variable string : str.

Lemma consume_offset : forall fuel g e,
  g_offset g <= length string ->
  consume decode fuel string g = Some (inl e) ->
  exists offset, e = Malformed offset /\ offset <= length string.
Proof.
  induction fuel as [|f IH]; intros g e Hg H; [discriminate|].
  cbn [consume] in H. unfold next in H.
  destruct (g_finished g); [discriminate|].
  destruct (finditer_next string (g_cursor g)) as [m|] eqn:En.
  - destruct (gap_dirty string (g_offset g) (m_start m)).
    + injection H as <-. eauto.
    + apply finditer_next_end in En.
      destruct (consume decode f string (mkGen (m_end m) (advance m) false))
        as [[e'|l]|] eqn:Ec; try discriminate.
      injection H as <-.
      now apply (IH (mkGen (m_end m) (advance m) false) e' En Ec).
  - destruct (tail_dirty string (g_offset g)); [|discriminate].
    injection H as <-. eauto.
Qed.

(** Consuming a text that is malformed after the matches [pre]. *)
Lemma loads_malformed_after pre :
  malformed_after string pre ->
  loads decode string = Some (inl (Malformed (offset_after 0 pre))).
Proof.
  intros H.
  destruct (malformed_after_nexts decode H) as (Hlen & g & Hn & Hr).
  unfold loads.
  replace (S (S (length string)))
    with (length pre + S (S (length string) - length pre)) by lia.
  rewrite (@consume_yields decode string pre start g
             (S (S (length string) - length pre))
             (inl (Malformed (offset_after 0 pre))) Hn); [reflexivity|].
  cbn [consume]. destruct (next decode string g) as [e g'].
  cbn in Hr. now rewrite Hr.
Qed.

Lemma first_dirty_gap : forall ms offset,
  gaps_clean string offset ms = false ->
  exists pre m post,
    ms = pre ++ m :: post /\ gaps_clean string offset pre = true
    /\ gap_dirty string (offset_after offset pre) (m_start m) = true.
Proof.
  induction ms as [|m ms IH]; intros offset H; [discriminate|].
  cbn [gaps_clean] in H.
  destruct (gap_dirty string offset (m_start m)) eqn:Eg.
  - exists [], m, ms. now repeat split.
  - cbn [negb andb] in H. destruct (IH _ H) as (pre & m' & post & -> & Hc & Hd).
    exists (m :: pre), m', post. repeat split.
    + cbn [gaps_clean]. now rewrite Eg, Hc.
    + now rewrite offset_after_cons.
Qed.

Lemma loads_well_tiled :
  well_tiled string = true ->
  loads decode string = Some (inr (map (pair_of decode) (matches string))).
Proof.
  unfold well_tiled. intros H. apply andb_true_iff in H.
  destruct H as [Hclean Htail]. apply negb_true_iff in Htail.
  assert (Hm : finditer (S (length string)) string 0 = matches string ++ [])
    by (now rewrite app_nil_r).
  destruct (@nexts_clean decode string (matches string) _ _ _ _ Hm Hclean)
    as (fuel' & cursor' & Hn & Hrest & Hinv).
  pose proof (finditer_length (S (length string)) string 0) as Hlen.
  fold (matches string) in Hlen.
  unfold loads.
  replace (S (S (length string)))
    with (length (matches string)
          + S (S (length string) - length (matches string))) by lia.
  rewrite (@consume_yields decode string (matches string) start _
             (S (S (length string) - length (matches string)))
             (inr []) Hn); [now rewrite app_nil_r|].
  cbn [consume]. unfold next. cbn [g_finished g_offset g_cursor].
  rewrite (@finditer_exhausted _ _ _ Hrest) by (apply Hinv; lia).
  now rewrite Htail.
Qed.

Lemma not_well_tiled :
  well_tiled string = false -> exists offset,
    loads decode string = Some (inl (Malformed offset)).
Proof.
  unfold well_tiled. intros H.
  destruct (gaps_clean string 0 (matches string)) eqn:Hclean.
  - cbn [andb] in H. apply negb_false_iff in H.
    exists (offset_after 0 (matches string)).
    apply loads_malformed_after. split; [assumption|]. now right.
  - destruct (first_dirty_gap _ _ Hclean)
      as (pre & m & post & Hm & Hc & Hd).
    exists (offset_after 0 pre).
    apply loads_malformed_after. split; [assumption|]. left. now exists m, post.
Qed.

End Offsets.



(** ** No empty string is ever yielded *)

Section Caps.

Variable P : string -> str -> Prop.

Section RepeatCaps.

Variable step : str -> caps -> list res.
Hypothesis step_caps :
  forall x c u x' c',
    caps_ok P c -> In (u, x', c') (step x c) -> caps_ok P c'.

Lemma repeat_greedy_caps : forall fuel x c u x' c',
  caps_ok P c -> In (u, x', c') (repeat_greedy step fuel x c) ->
  caps_ok P c'.
Proof.
  induction fuel as [|f IH]; intros x c u x' c' Hc H; cbn [repeat_greedy] in H.
  - destruct H as [[= <- <- <-]|[]]. exact Hc.
  - apply in_app_iff in H. destruct H as [H|[[= <- <- <-]|[]]]; [|exact Hc].
    apply in_andthen in H.
    destruct H as (u1 & x1 & c1 & u2 & x2 & c2 & H1 & H2 & [= -> -> ->]).
    apply in_progress in H1.
    eapply IH; [|exact H2]. eapply step_caps; [exact Hc|exact H1].
Qed.

Lemma repeat_lazy_caps : forall fuel x c u x' c',
  caps_ok P c -> In (u, x', c') (repeat_lazy step fuel x c) ->
  caps_ok P c'.
Proof.
  induction fuel as [|f IH]; intros x c u x' c' Hc H; cbn [repeat_lazy] in H.
  - destruct H as [[= <- <- <-]|[]]. exact Hc.
  - destruct H as [[= <- <- <-]|H]; [exact Hc|].
    apply in_andthen in H.
    destruct H as (u1 & x1 & c1 & u2 & x2 & c2 & H1 & H2 & [= -> -> ->]).
    apply in_progress in H1.
    eapply IH; [|exact H2]. eapply step_caps; [exact Hc|exact H1].
Qed.

End RepeatCaps.

Lemma rmatch_caps icase : forall r,
  groups_ok P r ->
  forall x c u x' c',
    caps_ok P c -> In (u, x', c') (rmatch icase r x c) -> caps_ok P c'.
Proof.
  induction r as [| cs | | r1 IH1 r2 IH2 | r1 IH1 r2 IH2 | r IH | r IH | r IH
                 | n r IH]; intros Hr x c u x' c' Hc H; cbn [groups_ok] in Hr.
  - destruct H as [[= <- <- <-]|[]]. exact Hc.
  - cbn [rmatch] in H. destruct x as [|a x]; [destruct H|].
    destruct (cset_match icase cs a); [|destruct H].
    destruct H as [[= <- <- <-]|[]]. exact Hc.
  - cbn [rmatch] in H. destruct (at_end x); [|destruct H].
    destruct H as [[= <- <- <-]|[]]. exact Hc.
  - destruct Hr as [Hr1 Hr2]. rewrite rmatch_seq in H. apply in_andthen in H.
    destruct H as (u1 & x1 & c1 & u2 & x2 & c2 & H1 & H2 & [= -> -> ->]).
    eapply IH2; [exact Hr2| |exact H2]. eapply IH1; [exact Hr1|exact Hc|exact H1].
  - destruct Hr as [Hr1 Hr2]. rewrite rmatch_alt in H. apply in_app_iff in H.
    destruct H as [H|H];
      [eapply IH1; [exact Hr1|exact Hc|exact H]
      |eapply IH2; [exact Hr2|exact Hc|exact H]].
  - rewrite rmatch_star in H.
    eapply repeat_greedy_caps; [exact (IH Hr)|exact Hc|exact H].
  - rewrite rmatch_plus in H. apply in_andthen in H.
    destruct H as (u1 & x1 & c1 & u2 & x2 & c2 & H1 & H2 & [= -> -> ->]).
    eapply repeat_greedy_caps; [exact (IH Hr)| |exact H2].
    eapply IH; [exact Hr|exact Hc|exact H1].
  - rewrite rmatch_plus_lazy in H. apply in_andthen in H.
    destruct H as (u1 & x1 & c1 & u2 & x2 & c2 & H1 & H2 & [= -> -> ->]).
    eapply repeat_lazy_caps; [exact (IH Hr)| |exact H2].
    eapply IH; [exact Hr|exact Hc|exact H1].
  - destruct Hr as [Hn Hr]. rewrite rmatch_group in H. apply in_map_iff in H.
    destruct H as ([[u0 x0] c0] & [= <- <- <-] & H).
    constructor; [eapply Hn; exact H|].
    eapply IH; [exact Hr|exact Hc|exact H].
Qed.

Lemma group_caps : forall (c : caps) n t,
  caps_ok P c -> group n c = Some t -> P n t.
Proof.
  induction c as [|[n0 v] c IH]; intros n t Hc H; [discriminate|].
  inversion Hc as [|p l Hp Hl]; subst. cbn [group] in H.
  destruct (String.eqb_spec n0 n) as [->|Hne].
  - now injection H as <-.
  - now apply IH.
Qed.

Lemma search_caps icase r : groups_ok P r -> forall x pos m,
  search icase r x pos = Some m -> caps_ok P (m_groups m).
Proof.
  intros Hr.
  assert (Hat : forall x pos m, match_at icase r x pos = Some m ->
                                caps_ok P (m_groups m)).
  { intros x pos m H. unfold match_at in H.
    destruct (rmatch icase r x []) as [|[[u y] c] l] eqn:E; [discriminate|].
    injection H as <-. cbn [m_groups].
    eapply rmatch_caps; [exact Hr|constructor|].
    rewrite E. now left. }
  induction x as [|a x IH]; intros pos m H; cbn [search] in H.
  - destruct (match_at icase r [] pos) eqn:E; [|discriminate].
    injection H as <-. now apply Hat in E.
  - destruct (match_at icase r (a :: x) pos) eqn:E.
    + injection H as <-. now apply Hat in E.
    + now apply IH in H.
Qed.

End Caps.

Lemma set_result icase cs x c u x' c' :
  In (u, x', c') (rmatch icase (RSet cs) x c) -> u <> [].
Proof.
  cbn [rmatch]. destruct x as [|a x]; [intros []|].
  destruct (cset_match icase cs a); [|intros []].
  intros [[= <- <- <-]|[]]. discriminate.
Qed.

Lemma plus_result icase cs x c u x' c' :
  In (u, x', c') (rmatch icase (RPlus (RSet cs)) x c) -> u <> [].
Proof.
  rewrite rmatch_plus. intros H. apply in_andthen in H.
  destruct H as (u1 & x1 & c1 & u2 & x2 & c2 & H1 & H2 & [= -> -> ->]).
  apply set_result in H1. destruct u1; [contradiction|discriminate].
Qed.

Lemma plus_lazy_result icase cs x c u x' c' :
  In (u, x', c') (rmatch icase (RPlusLazy (RSet cs)) x c) -> u <> [].
Proof.
  rewrite rmatch_plus_lazy. intros H. apply in_andthen in H.
  destruct H as (u1 & x1 & c1 & u2 & x2 & c2 & H1 & H2 & [= -> -> ->]).
  apply set_result in H1. destruct u1; [contradiction|discriminate].
Qed.

Lemma PAIR_RE_groups : groups_ok bare_nonempty PAIR_RE.
Proof.
  unfold PAIR_RE, KEY_RE, ARROW_RE, VALUE_RE, TAIL_RE, QUOTED, QUOTED_CHAR.
  cbn [groups_ok lit s list_ascii_of_string].
  repeat split; try exact I;
    intros icase x c u x' c' Hin Hn;
    first [ now destruct Hn as [Hn|Hn]; discriminate Hn
          | now apply plus_lazy_result in Hin
          | now apply plus_result in Hin ].
Qed.

Lemma unescape_nonempty x : x <> [] -> unescape x <> [].
Proof.
  rewrite unescape_scan. destruct x as [|a [|b x]]; [easy|easy|].
  intros _. rewrite strip_escapes_cons2.
  destruct (Ascii.eqb a backslash && negb (Ascii.eqb b newline)); discriminate.
Qed.

Section Nonempty.

Variable decode : str -> str.

Lemma pair_of_nonempty m :
  caps_ok bare_nonempty (m_groups m) ->
  from_nonempty decode (fst (pair_of decode m))
  /\ from_nonempty decode (snd (pair_of decode m)).
Proof.
  intros Hc. unfold pair_of. cbn [fst snd]. split.
  - destruct (group "kq" (m_groups m)) as [[|a kq]|]; cbn [present option_map].
    + destruct (group "kb" (m_groups m)) as [t|] eqn:E; cbn; [|exact I].
      exists t. split; [|reflexivity].
      pose proof (@group_caps bare_nonempty _ _ _ Hc E) as Hb.
      apply Hb. now left.
    + exists (unescape (a :: kq)). split; [|reflexivity].
      now apply unescape_nonempty.
    + destruct (group "kb" (m_groups m)) as [t|] eqn:E; cbn; [|exact I].
      exists t. split; [|reflexivity].
      pose proof (@group_caps bare_nonempty _ _ _ Hc E) as Hb.
      apply Hb. now left.
  - assert (Hvb : from_nonempty decode
                    (option_map decode
                       (if present (group "vn" (m_groups m)) then None
                        else group "vb" (m_groups m)))).
    { destruct (present (group "vn" (m_groups m))); [exact I|].
      destruct (group "vb" (m_groups m)) as [t|] eqn:E; cbn; [|exact I].
      exists t. split; [|reflexivity].
      pose proof (@group_caps bare_nonempty _ _ _ Hc E) as Hb.
      apply Hb. now right. }
    destruct (group "vq" (m_groups m)) as [[|a vq]|]; cbn [present option_map];
      try exact Hvb.
    exists (unescape (a :: vq)). split; [|reflexivity].
    now apply unescape_nonempty.
Qed.

Lemma nexts_nonempty string : forall n g e,
  In e (fst (nexts decode n string g)) -> yield_nonempty decode e.
Proof.
  induction n as [|n IH]; intros g e H; [destruct H|].
  cbn [nexts] in H.
  destruct (next decode string g) as [e0 g1] eqn:En.
  destruct (nexts decode n string g1) as [es g2] eqn:Es.
  cbn [fst] in H. destruct H as [<-|H].
  - unfold next in En. destruct (g_finished g); [now injection En as <- _|].
    destruct (finditer_next string (g_cursor g)) as [m|] eqn:Ef.
    + destruct (gap_dirty string (g_offset g) (m_start m));
        injection En as <- _; [exact I|].
      cbn [yield_nonempty]. apply pair_of_nonempty.
      unfold finditer_next in Ef.
      destruct (length string <? g_cursor g); [discriminate|].
      eapply search_caps; [exact PAIR_RE_groups|exact Ef].
    + destruct (tail_dirty string (g_offset g)); injection En as <- _; exact I.
  - apply (IH g1 e). now rewrite Es.
Qed.

End Nonempty.



(** ** What each token means *)

Lemma meaning_tokens decode it :
  item_ok it = true -> meaning decode it = token_meaning decode it.
Proof.
  intros Hok. unfold item_ok in Hok.
  apply andb_true_iff in Hok. destruct Hok as [_ Hv].
  destruct it as [w1 k w2 w3 v]. cbn [i_value] in Hv.
  unfold meaning, token_meaning, pair_of, item_groups.
  cbn [m_groups i_key i_value].
  destruct k as [[|a kb]|t], v as [[|b vb]|sp|x];
    cbn [key_groups value_groups app group String.eqb Ascii.eqb Bool.eqb andb
         present option_map key_meaning value_meaning];
    try reflexivity;
    (destruct sp as [|c sp]; [discriminate Hv|reflexivity]).
Qed.



(** ** A trailing comma, and blank text *)

Lemma loose_trail_none : forall l, loose_trail l None = loose_text l.
Proof.
  induction l as [|it l IH]; [reflexivity|].
  rewrite loose_cons. cbn [loose_trail].
  destruct l as [|it' l]; [reflexivity|]. now rewrite IH.
Qed.

Lemma loose_trail_some : forall l w,
  l <> [] -> loose_trail l (Some w) = loose_text l ++ comma :: w.
Proof.
  induction l as [|it l IH]; intros w Hl; [contradiction|].
  rewrite loose_cons. cbn [loose_trail].
  destruct l as [|it' l].
  - cbn [tail_text]. now rewrite app_nil_r.
  - rewrite IH by discriminate. cbn [tail_text].
    rewrite <- !app_assoc. reflexivity.
Qed.

Lemma loose_trail_length : forall l trail,
  length l <= length (loose_trail l trail).
Proof.
  induction l as [|it l IH]; intros trail; [cbn; lia|].
  cbn [loose_trail]. unfold item_text, pair_text. rewrite !length_app.
  destruct l as [|it' l].
  - cbn [length s list_ascii_of_string]. lia.
  - specialize (IH trail). cbn [tail_text length s list_ascii_of_string] in *.
    lia.
Qed.

Section Trailing.

Variable decode : str -> str.

Lemma next_end_space done w :
  forallb isspace w = true ->
  next decode (done ++ w) (mkGen (length done) (length done) false)
  = (StopIteration, mkGen (length done) (length done) true).
Proof.
  intros Hw. unfold next. cbn [g_finished g_offset g_cursor].
  unfold finditer_next, tail_dirty.
  assert (Hlt : (length (done ++ w) <? length done) = false)
    by (apply Nat.ltb_ge; rewrite length_app; lia).
  rewrite Hlt, skipn_length_app.
  rewrite <- (app_nil_r w) at 1. rewrite search_skip_space by assumption.
  rewrite strip_spaces by assumption. reflexivity.
Qed.

Lemma consume_trail : forall l done fuel trail,
  forallb item_ok l = true ->
  trail_ok trail = true ->
  length l < fuel ->
  consume decode fuel (done ++ loose_trail l trail)
          (mkGen (length done) (length done) false)
  = Some (inr (map (meaning decode) l)).
Proof.
  induction l as [|it l IH]; intros done fuel trail Hok Ht Hfuel;
    (destruct fuel as [|f]; [lia|]); cbn [consume loose_trail].
  - now rewrite next_end_space.
  - cbn [forallb] in Hok. apply andb_true_iff in Hok.
    destruct Hok as [Hit Hok].
    rewrite next_item by assumption.
    set (more := match l with
                 | [] => trail
                 | _ :: _ => Some (loose_trail l trail)
                 end).
    assert (E : done ++ item_text it ++ tail_text more
                = (done ++ item_text it ++ tail_sep more)
                  ++ loose_trail l trail).
    { rewrite <- !app_assoc. do 2 f_equal. unfold more.
      destruct l as [|it' l]; [now destruct trail|reflexivity]. }
    rewrite E, IH; [reflexivity|assumption|assumption|]. cbn in Hfuel. lia.
Qed.

Lemma loads_trail l trail :
  forallb item_ok l = true -> trail_ok trail = true ->
  loads decode (loose_trail l trail) = Some (inr (map (meaning decode) l)).
Proof.
  intros Hok Ht. unfold loads.
  apply (@consume_trail l [] (S (S (length (loose_trail l trail)))) trail
           Hok Ht).
  pose proof (loose_trail_length l trail). lia.
Qed.

End Trailing.





(** ** The matches of what [dump] wrote *)

Lemma finditer_next_item done it more :
  item_ok it = true ->
  finditer_next (done ++ item_text it ++ tail_text more) (length done)
  = Some (mkMatch (length done + length (i_lead it))
                  (length (done ++ item_text it ++ tail_sep more))
                  (item_groups it)).
Proof.
  intros Hok. unfold item_ok in Hok.
  apply andb_true_iff in Hok. destruct Hok as [Hok Hv].
  apply andb_true_iff in Hok. destruct Hok as [Hok H3].
  apply andb_true_iff in Hok. destruct Hok as [Hok H2].
  apply andb_true_iff in Hok. destruct Hok as [H1 Hk].
  destruct it as [w1 k w2 w3 v]. cbn [i_lead i_key i_left i_right i_value] in *.
  unfold finditer_next.
  assert (Hlt : (length (done ++ item_text (mkItem w1 k w2 w3 v)
                         ++ tail_text more) <? length done) = false).
  { apply Nat.ltb_ge. rewrite length_app. lia. }
  rewrite Hlt, skipn_length_app.
  unfold item_text, pair_text, item_groups.
  cbn [i_lead i_key i_left i_right i_value].
  replace ((w1 ++ key_text k ++ w2 ++ s "=>" ++ w3 ++ value_text v)
           ++ tail_text more)
    with (w1 ++ key_text k ++ w2 ++ s "=>" ++ w3 ++ value_text v
          ++ tail_text more)
    by (now rewrite <- !app_assoc).
  rewrite search_skip_space by assumption.
  rewrite (@search_hit _ _ _ _ _ (hd_pair k w2 w3 v more Hk H2 H3 Hv)).
  do 2 f_equal. rewrite !length_app. lia.
Qed.

Lemma finditer_next_end_of_text done :
  finditer_next (done ++ []) (length done) = None.
Proof.
  unfold finditer_next.
  assert (Hlt : (length (done ++ []) <? length done) = false)
    by (apply Nat.ltb_ge; rewrite length_app; lia).
  rewrite Hlt, skipn_length_app. reflexivity.
Qed.

Lemma finditer_loose : forall l done fuel,
  forallb item_ok l = true ->
  length l < fuel ->
  map m_groups (finditer fuel (done ++ loose_text l) (length done))
  = map item_groups l.
Proof.
  induction l as [|it l IH]; intros done fuel Hok Hfuel;
    (destruct fuel as [|f]; [lia|]); cbn [finditer].
  - change (loose_text []) with (@nil ascii).
    now rewrite finditer_next_end_of_text.
  - cbn [forallb] in Hok. apply andb_true_iff in Hok.
    destruct Hok as [Hit Hok].
    rewrite loose_cons, finditer_next_item by assumption.
    set (more := match l with [] => None | _ :: _ => Some (loose_text l) end).
    cbn [map m_groups]. f_equal.
    assert (Hadv : advance
                     (mkMatch (length done + length (i_lead it))
                        (length (done ++ item_text it ++ tail_sep more))
                        (item_groups it))
                   = length (done ++ item_text it ++ tail_sep more)).
    { unfold advance. cbn [m_start m_end].
      assert (Hne : (length (done ++ item_text it ++ tail_sep more)
                     =? length done + length (i_lead it)) = false).
      { apply Nat.eqb_neq. unfold item_text, pair_text.
        rewrite !length_app. cbn [length s list_ascii_of_string]. lia. }
      now rewrite Hne. }
    rewrite Hadv.
    assert (E : done ++ item_text it ++ tail_text more
                = (done ++ item_text it ++ tail_sep more) ++ loose_text l).
    { unfold more. destruct l as [|it' l]; cbn [tail_text tail_sep].
      - change (loose_text []) with (@nil ascii). now rewrite !app_nil_r.
      - rewrite <- !app_assoc. reflexivity. }
    rewrite E. apply IH; [assumption|]. cbn in Hfuel. lia.
Qed.

Lemma as_item_groups p : item_groups (as_item p) = dumped_groups p.
Proof. now destruct p as [k [v|]]. Qed.

Lemma groups_of_render d :
  map m_groups (matches (render d)) = map dumped_groups d.
Proof.
  unfold matches. rewrite render_loose.
  assert (H : map m_groups
                (finditer (S (length (loose_text (map as_item d))))
                          ([] ++ loose_text (map as_item d)) (length (@nil ascii)))
              = map item_groups (map as_item d)).
  { apply finditer_loose.
    - apply forallb_forall. intros it Hin.
      apply in_map_iff in Hin. destruct Hin as (p & <- & _).
      apply as_item_ok.
    - pose proof (loose_length (map as_item d)). lia. }
  cbn [app length] in H. rewrite H, map_map.
  apply map_ext. intros p. apply as_item_groups.
Qed.

Lemma read_dumped_groups p : read_groups (dumped_groups p) = p.
Proof.
  destruct p as [k [v|]]; unfold read_groups, dumped_groups;
    cbn [fst snd group String.eqb Ascii.eqb Bool.eqb andb option_map];
    now rewrite ?unescape_escape.
Qed.

(** In the text that [dumps] returns, [PAIR_RE] finds exactly one match
    for each pair of the document, in order; its group [kq] is the
    escaped key and its group [vq] the escaped value, the empty ones
    included, and a [None] value is the group [vn]. *)
Theorem matches_of_dumps :
  forall (key_map value_map : option (pyobj -> str))
         (d : list (str * option str)),
    dumps key_map value_map (as_items d) = inr (render d)
    /\ map m_groups (matches (render d)) = map dumped_groups d.
Proof.
  intros km vm d. split; [|apply groups_of_render].
  unfold dumps, dump. now rewrite dump_loop_text.
Qed.

(** [dumps] is injective on documents of strings and [None] values: two
    documents that differ, be it in an empty string or in the order of
    their pairs, are written differently. *)
Theorem dumps_injective :
  forall (key_map value_map : option (pyobj -> str))
         (d1 d2 : list (str * option str)),
    d1 <> d2 ->
    dumps key_map value_map (as_items d1)
    <> dumps key_map value_map (as_items d2).
Proof.
  intros km vm d1 d2 Hne H. apply Hne.
  unfold dumps, dump in H. rewrite !dump_loop_text in H.
  injection H as H. cbn [app] in H.
  assert (R : forall d, map read_groups (map m_groups (matches (render d)))
                        = d).
  { intros d. rewrite groups_of_render, map_map.
    rewrite (map_ext _ (fun p => p)) by apply read_dumped_groups.
    apply map_id. }
  rewrite <- (R d1), <- (R d2). now rewrite H.
Qed.

Lemma dumps_injective_witness :
  [([] : str, Some ([] : str))] <> [([], None)]
  /\ dumps None None (as_items [([], Some [])])
     <> dumps None None (as_items [([], None)]).
Proof.
  assert (H : [([] : str, Some ([] : str))] <> [([], None)]) by discriminate.
  split; [exact H|].
  exact (@dumps_injective None None _ _ H).
Defined.

(** ** What [dump] has written when it fails *)

Section DumpWrites.

Variables key_map value_map : option (pyobj -> str).

Lemma dump_loop_app_text : forall d rest first file,
  dump_loop key_map value_map (as_items d ++ rest) first file
  = dump_loop key_map value_map rest
      (first && match d with [] => true | _ :: _ => false end)
      (file ++ (if first then render d else render_more d)).
Proof.
  induction d as [|[k v] d IH]; intros rest first file.
  - destruct first; cbn; now rewrite app_nil_r.
  - cbn [as_items map app dump_loop fst snd dump_key].
    assert (Ev : dump_value value_map k
                   match v with Some v0 => PyStr v0 | None => PyNone end
                 = inr v) by (destruct v; reflexivity).
    rewrite Ev. fold (as_items d). rewrite IH.
    rewrite andb_false_r. cbn [andb]. f_equal.
    cbn [render_more flat_map]. rewrite render_cons.
    unfold render_pair. cbn [fst snd].
    destruct first, v as [v|]; cbn [s list_ascii_of_string]; app_norm;
      reflexivity.
Qed.

End DumpWrites.

(** [dump] appends to the file, pair by pair: on success the file has
    grown by the text that [dumps] returns; when a key that is not a
    string meets no [key_map], or a value that is neither a string nor
    [None] meets no [value_map], the TypeError is raised for that item
    and the file keeps the text of the pairs before it. *)
Theorem dump_writes_until_error :
  forall (key_map value_map : option (pyobj -> str))
         (d : list (str * option str)) (post : list (pyobj * pyobj))
         (file : str),
    dump key_map value_map (as_items d) file = (file ++ render d, None)
    /\ (forall o value,
           dump None value_map (as_items d ++ (PyOther o, value) :: post) file
           = (file ++ render d, Some (KeyNotString (PyOther o))))
    /\ (forall value,
           dump None value_map (as_items d ++ (PyNone, value) :: post) file
           = (file ++ render d, Some (KeyNotString PyNone)))
    /\ (forall k o,
           dump key_map None (as_items d ++ (PyStr k, PyOther o) :: post) file
           = (file ++ render d, Some (ValueNotString (PyOther o) k))).
Proof.
  intros km vm d post file. unfold dump. repeat split.
  - apply dump_loop_text.
  - intros o value. now rewrite dump_loop_app_text.
  - intros value. now rewrite dump_loop_app_text.
  - intros k o. now rewrite dump_loop_app_text.
Qed.

(** ** [loads] and [dumps] on dictionaries *)

Lemma dict_set_fresh : forall (d : list Pair) k v,
  ~ In k (map fst d) -> dict_set k v d = d ++ [(k, v)].
Proof.
  induction d as [|[k' v'] d IH]; intros k v Hk; [reflexivity|].
  cbn [dict_set]. destruct (key_eq_dec k k') as [->|Hne].
  - exfalso. apply Hk. now left.
  - cbn [app]. f_equal. apply IH. intros Hin. apply Hk. now right.
Qed.

Lemma dict_fold_nodup : forall (pairs acc : list Pair),
  NoDup (map fst (acc ++ pairs)) ->
  fold_left (fun d p => dict_set (fst p) (snd p) d) pairs acc = acc ++ pairs.
Proof.
  induction pairs as [|[k v] pairs IH]; intros acc Hnd.
  - cbn. now rewrite app_nil_r.
  - cbn [fold_left fst snd]. rewrite dict_set_fresh.
    + rewrite IH; rewrite <- app_assoc; [reflexivity|exact Hnd].
    + rewrite map_app in Hnd. cbn [map fst] in Hnd.
      apply NoDup_remove_2 in Hnd. intros Hin. apply Hnd.
      apply in_app_iff. now left.
Qed.

Lemma dict_nodup (pairs : list Pair) :
  NoDup (map fst pairs) -> dict pairs = pairs.
Proof. intros H. unfold dict. now rewrite dict_fold_nodup. Qed.

Lemma NoDup_map_Some (A : Type) (l : list A) :
  NoDup l -> NoDup (map Some l).
Proof.
  induction 1 as [|a l Ha Hl IH]; cbn; constructor; [|assumption].
  intros Hin. apply in_map_iff in Hin. destruct Hin as (b & [= ->] & Hb).
  contradiction.
Qed.

Lemma loads_render decode d :
  loads decode (render d)
  = Some (inr (map (meaning decode) (map as_item d))).
Proof.
  rewrite render_loose. apply loads_loose.
  apply forallb_forall. intros it Hin.
  apply in_map_iff in Hin. destruct Hin as (p & <- & _).
  apply as_item_ok.
Qed.

Lemma meaning_decoded decode d :
  forallb nonempty_strings d = true ->
  map (meaning decode) (map as_item d) = map (decoded decode) d.
Proof.
  intros Hd. rewrite map_map. apply map_ext_in. intros p Hin.
  apply as_item_meaning. rewrite forallb_forall in Hd. now apply Hd.
Qed.



(** ** Joining two texts *)

Lemma render_more_cons p d : render_more (p :: d) = comma :: render (p :: d).
Proof. now rewrite render_cons. Qed.

Lemma render_app d1 d2 :
  d1 <> [] -> d2 <> [] ->
  render (d1 ++ d2) = render d1 ++ comma :: render d2.
Proof.
  intros H1 H2. destruct d1 as [|p1 d1]; [contradiction|].
  destruct d2 as [|p2 d2]; [contradiction|].
  change ((p1 :: d1) ++ p2 :: d2) with (p1 :: (d1 ++ p2 :: d2)).
  rewrite !(render_cons p1). unfold render_more at 1.
  rewrite flat_map_app. fold (render_more d1) (render_more (p2 :: d2)).
  rewrite render_more_cons. now rewrite <- app_assoc.
Qed.



(** ** Sizes and plain text *)

Lemma escape_char_length c :
  length (escape_char c) = if plain c then 1 else 2.
Proof.
  unfold escape_char, plain.
  destruct (Ascii.eqb c backslash); [reflexivity|].
  destruct (Ascii.eqb c dquote); reflexivity.
Qed.

Lemma escape_length x : length (escape x) = length x + specials x.
Proof.
  unfold specials. induction x as [|a x IH]; [reflexivity|].
  rewrite escape_cons, length_app, escape_char_length, IH.
  cbn [filter length]. destruct (plain a); cbn [negb length]; lia.
Qed.

Lemma escape_plain x : forallb plain x = true -> escape x = x.
Proof.
  induction x as [|a x IH]; intros H; [reflexivity|].
  cbn [forallb] in H. apply andb_true_iff in H. destruct H as [Ha H].
  rewrite escape_cons, IH by assumption.
  unfold escape_char. unfold plain in Ha. apply andb_true_iff in Ha.
  destruct Ha as [Hb Hq]. apply negb_true_iff in Hb, Hq.
  now rewrite Hb, Hq.
Qed.

Lemma specials_zero x : specials x = 0 -> forallb plain x = true.
Proof.
  unfold specials. induction x as [|a x IH]; intros H; [reflexivity|].
  cbn [filter forallb] in *. destruct (plain a); cbn [negb] in H.
  - now apply IH.
  - discriminate.
Qed.

Lemma strip_escapes_no_backslash x :
  forallb no_backslash x = true -> strip_escapes x = x.
Proof.
  induction x as [| a | a b x IH1 IH2] using pair_induction; intros H;
    [reflexivity|reflexivity|].
  rewrite strip_escapes_cons2.
  cbn [forallb] in H. apply andb_true_iff in H. destruct H as [Ha H].
  unfold no_backslash in Ha. apply negb_true_iff in Ha. rewrite Ha.
  cbn [andb]. f_equal. now apply IH2.
Qed.

Lemma strip_escapes_size : forall x,
  length (strip_escapes x) <= length x
  /\ length x <= 2 * length (strip_escapes x).
Proof.
  induction x as [| a | a b x IH1 IH2] using pair_induction;
    [cbn; lia|cbn; lia|].
  rewrite strip_escapes_cons2.
  destruct (Ascii.eqb a backslash && negb (Ascii.eqb b newline));
    cbn [length] in *; lia.
Qed.

(** [escape] and [unescape] leave plain text alone: a string comes out of
    [escape] unchanged exactly when it has neither a backslash nor a
    double quote, and a string without a backslash comes out of
    [unescape] unchanged. *)
Theorem plain_text_unchanged :
  forall x : str,
    (escape x = x <-> forallb plain x = true)
    /\ (forallb no_backslash x = true -> unescape x = x).
Proof.
  intros x. split; [split|].
  - intros H. apply specials_zero.
    apply (f_equal (@length ascii)) in H. rewrite escape_length in H. lia.
  - apply escape_plain.
  - intros H. rewrite unescape_scan. now apply strip_escapes_no_backslash.
Qed.

Lemma plain_text_unchanged_witness :
  forallb plain (s "a=>1, b") = true
  /\ escape (s "a=>1, b") = s "a=>1, b"
  /\ unescape (s "a=>1, b") = s "a=>1, b".
Proof.
  split; [reflexivity|]. split.
  - exact (proj2 (proj1 (plain_text_unchanged (s "a=>1, b"))) eq_refl).
  - exact (proj2 (plain_text_unchanged (s "a=>1, b")) eq_refl).
Defined.

(** [escape] adds exactly one character for each backslash and each
    double quote, so its result is at most twice as long; [unescape]
    never makes a string longer and never shorter than half of it. *)
Theorem escape_unescape_size :
  forall x : str,
    length (escape x) = length x + specials x
    /\ length (escape x) <= 2 * length x
    /\ length (unescape x) <= length x
    /\ length x <= 2 * length (unescape x).
Proof.
  intros x. split; [apply escape_length|]. split.
  - rewrite escape_length. unfold specials.
    pose proof (filter_length_le (fun c => negb (plain c)) x). lia.
  - rewrite unescape_scan. apply strip_escapes_size.
Qed.

(** What [escape] returns can stand between double quotes whatever
    follows: it has no double quote of its own and no backslash left
    alone, and the quoted alternative of [PAIR_RE] takes the whole token,
    with the escaped string as the group. *)
Theorem escaped_token_matched_whole :
  forall (x rest : str) (name : string) (c : caps),
    quoted_ok (escape x) = true
    /\ hd_error (rmatch true (QUOTED name) (quoted (escape x) ++ rest) c)
       = Some (quoted (escape x), rest, (name, escape x) :: c).
Proof.
  intros x rest name c. split; [apply quoted_ok_escape|].
  apply hd_quoted, quoted_ok_escape.
Qed.

(** ** The error points at text *)

Lemma lstrip_nil x : lstrip x = [] -> forallb isspace x = true.
Proof.
  induction x as [|a x IH]; intros H; [reflexivity|].
  cbn in H |- *. destruct (isspace a); [now apply IH|discriminate].
Qed.

Lemma lstrip_rev_nil x :
  lstrip (rev (lstrip x)) = [] -> lstrip x = [].
Proof.
  intros H. apply lstrip_nil in H.
  induction x as [|a x IH]; [reflexivity|].
  cbn in H |- *. destruct (isspace a) eqn:Ea; [now apply IH|].
  cbn [rev] in H. rewrite forallb_app in H. cbn [forallb] in H.
  rewrite Ea in H. rewrite andb_false_r in H. discriminate.
Qed.

Lemma strip_nil x : strip x = [] -> forallb isspace x = true.
Proof.
  unfold strip, rstrip. intros H.
  apply (f_equal (@rev ascii)) in H. rewrite rev_involutive in H.
  cbn [rev] in H. apply lstrip_rev_nil in H. now apply lstrip_nil.
Qed.

Lemma truthy_strip_firstn k x :
  truthy (strip (firstn k x)) = true -> truthy (strip x) = true.
Proof.
  intros H. destruct (strip x) eqn:E; [|reflexivity].
  apply strip_nil in E.
  assert (Hf : forallb isspace (firstn k x) = true).
  { rewrite forallb_forall in E |- *. intros c Hc. apply E.
    rewrite <- (firstn_skipn k x). apply in_app_iff. now left. }
  now rewrite strip_spaces in H.
Qed.

Section Points.

Variable decode : str -> str.
Variable string : str.

Lemma consume_points : forall fuel g offset,
  g_offset g <= g_cursor g ->
  g_offset g <= length string ->
  consume decode fuel string g = Some (inl (Malformed offset)) ->
  offset <= length string /\ truthy (strip (skipn offset string)) = true.
Proof.
  induction fuel as [|f IH]; intros g offset Hc Hl H; [discriminate|].
  cbn [consume] in H. unfold next in H.
  destruct (g_finished g); [discriminate|].
  destruct (finditer_next string (g_cursor g)) as [m|] eqn:En.
  - pose proof (finditer_next_bounds _ _ En) as [_ Hadv].
    pose proof (finditer_next_end _ _ En) as Hend.
    assert (Hstart : g_cursor g <= m_start m).
    { unfold finditer_next in En.
      destruct (length string <? g_cursor g); [discriminate|].
      now apply search_bounds in En. }
    destruct (gap_dirty string (g_offset g) (m_start m)) eqn:Eg.
    + injection H as <-. split; [assumption|].
      unfold gap_dirty in Eg.
      assert (Hlt : (m_start m <? g_offset g) = false)
        by (apply Nat.ltb_ge; lia).
      rewrite Hlt in Eg. cbn [orb] in Eg. unfold slice in Eg.
      now apply truthy_strip_firstn in Eg.
    + destruct (consume decode f string (mkGen (m_end m) (advance m) false))
        as [[e'|l]|] eqn:Ec; try discriminate.
      injection H as ->.
      apply (IH (mkGen (m_end m) (advance m) false) offset); cbn; try lia.
      * unfold advance. destruct (m_end m =? m_start m); lia.
      * exact Ec.
  - destruct (tail_dirty string (g_offset g)) eqn:Et; [|discriminate].
    injection H as <-. split; [assumption|].
    unfold tail_dirty in Et.
    assert (Hlt : (length string <? g_offset g) = false)
      by (apply Nat.ltb_ge; lia).
    now rewrite Hlt in Et.
Qed.

End Points.


